(** * The recurrences package: parser, normaliser, solver and formatter

    A shallow embedding of [src/python/recurrences] (types.py, utils.py,
    parser.py, solver.py, formatter.py).

    - Python [str] is a list of Unicode code points ([str := list N]).
    - Python [float] is IEEE binary64, taken from the Standard Library's
      [spec_float] with [prec = 53] and [emax = 1024]; every arithmetic
      operation rounds to nearest even exactly as the hardware does.
    - Exceptions are an explicit [result] type.
    - What the package imports and does not define (the Unicode character
      database behind [regex]/[re], [numpy]'s [log], [exp] and [sum], [math]'s
      [log] and [exp], [scipy.optimize.root_scalar]) enters through the type
      classes [Unicode], [Numerics] and [SciPy]. *)

From Stdlib Require Import ZArith NArith List String Ascii Bool Lia.
From Stdlib Require Import DecimalString.
From Stdlib Require Import SpecFloat.
From Stdlib Require Import Reals Lra.
Import ListNotations.

Set Implicit Arguments.

(* ================================================================== *)
(** * Part I. Definitions                                              *)
(* ================================================================== *)

(** ** Exceptions *)

(** The messages of [ParseError] carry the offending substring; the
    constructors name the [raise] site in parser.py. *)
Inductive parse_failure : Type :=
| EmptyInput
| ExpectedOneEq
| EmptyLhs
| EmptyRhs
| InvalidLhs (lhs_str : list N)
| InvalidFunctionName (name : list N)
| NoArguments (lhs_str : list N)
| InvalidVariableName (arg : list N)
| DuplicateVariableName (arg : list N)
| InvalidTerm (summand : list N)
| DifferentFunctionName (summand fn_name : list N)
| WrongArity (summand : list N) (got expected : nat)
| InvalidArgument (arg summand : list N).

Inductive exn : Type :=
| ParseError (why : parse_failure)
| ValueError
| OverflowError
| IndexError.

Inductive result (A : Type) : Type :=
| Ok (a : A)
| Raise (e : exn).
Arguments Ok {A} a.
Arguments Raise {A} e.

Definition bind {A B : Type} (r : result A) (k : A -> result B) : result B :=
  match r with
  | Ok a => k a
  | Raise e => Raise e
  end.

Notation "x <- r ;; k" := (bind r (fun x => k))
  (at level 61, r at next level, right associativity).

(** [for x in xs: ys.append(f x)], stopping at the first exception. *)
Fixpoint mapM {A B : Type} (f : A -> result B) (xs : list A) : result (list B) :=
  match xs with
  | [] => Ok []
  | x :: xs' => y <- f x ;; ys <- mapM f xs' ;; Ok (y :: ys)
  end.

(** ** Strings *)

Definition str : Type := list N.

(** An ASCII literal as a Python string. *)
Definition lit (s : string) : str :=
  map N_of_ascii (list_ascii_of_string s).

Definition str_eqb (a b : str) : bool :=
  if list_eq_dec N.eq_dec a b then true else false.

Fixpoint starts_with (p s : str) : bool :=
  match p, s with
  | [], _ => true
  | _ :: _, [] => false
  | a :: p', b :: s' => N.eqb a b && starts_with p' s'
  end.

(** [sep.join(parts)] *)
Fixpoint join (sep : str) (parts : list str) : str :=
  match parts with
  | [] => []
  | [p] => p
  | p :: rest => p ++ sep ++ join sep rest
  end.

(** [s.split(c)] for a one-character separator: never empty, one piece
    more than there are separators. *)
Fixpoint split (c : N) (s : str) : list str :=
  match s with
  | [] => [[]]
  | x :: s' =>
      if N.eqb x c then [] :: split c s'
      else match split c s' with
           | [] => [[x]]
           | p :: ps => (x :: p) :: ps
           end
  end.

(** [s.replace(old, new)] for a non-empty [old]: occurrences are taken
    from the left and do not overlap.  [skip] counts the characters of a
    matched [old] still to be dropped. *)
Fixpoint replace_from (old new : str) (skip : nat) (s : str) : str :=
  match s with
  | [] => []
  | c :: s' =>
      match skip with
      | S k => replace_from old new k s'
      | O =>
          if starts_with old s
          then new ++ replace_from old new (List.length old - 1) s'
          else c :: replace_from old new 0 s'
      end
  end.

Definition replace (old new s : str) : str := replace_from old new 0 s.

(** [s.rstrip(chars)] for a single character. *)
Fixpoint lstrip_char (c : N) (s : str) : str :=
  match s with
  | x :: s' => if N.eqb x c then lstrip_char c s' else s
  | [] => []
  end.

Definition rstrip_char (c : N) (s : str) : str :=
  rev (lstrip_char c (rev s)).

Fixpoint lstrip_by (p : N -> bool) (s : str) : str :=
  match s with
  | x :: s' => if p x then lstrip_by p s' else s
  | [] => []
  end.

(** The longest prefix of characters satisfying [p], and the rest. *)
Fixpoint span (p : N -> bool) (s : str) : str * str :=
  match s with
  | x :: s' =>
      if p x then let (a, b) := span p s' in (x :: a, b) else ([], s)
  | [] => ([], [])
  end.

(** ** The Unicode character database

    [regex]'s [\p{L}] and [\p{N}], [re]'s [\d] and [\s], [str.strip] and
    [float] consult the Unicode character database.  Basic Latin is spelled
    out below; the table for the code points from 128 on is a parameter. *)

Inductive gcat : Type :=
| Letter                       (* L*: [\p{L}] *)
| DecimalDigit (value : Z)     (* Nd: [\d], [\p{N}]; its decimal value *)
| OtherNumber                  (* Nl, No: [\p{N}] only *)
| OtherChar.

Class Unicode : Type := {
  uc_category : N -> gcat;
  uc_isspace : N -> bool
}.

Definition in_range (lo hi c : N) : bool := (N.leb lo c && N.leb c hi)%N.

Definition category `{Unicode} (c : N) : gcat :=
  if N.ltb c 128 then
    if in_range 65 90 c || in_range 97 122 c then Letter
    else if in_range 48 57 c then DecimalDigit (Z.of_N c - 48)
    else OtherChar
  else uc_category c.

(** [\s] of [re] on [str], and what [str.strip()] removes. *)
Definition isspace `{Unicode} (c : N) : bool :=
  if N.ltb c 128 then in_range 9 13 c || in_range 28 32 c
  else uc_isspace c.

Definition is_L `{Unicode} (c : N) : bool :=
  match category c with Letter => true | _ => false end.

Definition is_N `{Unicode} (c : N) : bool :=
  match category c with DecimalDigit _ | OtherNumber => true | _ => false end.

(** [\d] *)
Definition is_d `{Unicode} (c : N) : bool :=
  match category c with DecimalDigit _ => true | _ => false end.

Definition digit_value `{Unicode} (c : N) : Z :=
  match category c with DecimalDigit v => v | _ => 0 end.

Definition strip `{Unicode} (s : str) : str :=
  rev (lstrip_by isspace (rev (lstrip_by isspace s))).

(** ** IEEE binary64 *)

Definition prec : Z := 53.
Definition emax : Z := 1024.

Definition float : Type := spec_float.

Declare Scope b64_scope.
Delimit Scope b64_scope with b64.
Bind Scope b64_scope with float.

Definition fadd : float -> float -> float := SFadd prec emax.
Definition fsub : float -> float -> float := SFsub prec emax.
Definition fmul : float -> float -> float := SFmul prec emax.
Definition fdiv : float -> float -> float := SFdiv prec emax.
Definition fneg : float -> float := SFopp.
Definition fabs : float -> float := SFabs.
Definition feqb : float -> float -> bool := SFeqb.
Definition fltb : float -> float -> bool := SFltb.
Definition fleb : float -> float -> bool := SFleb.

Infix "+" := fadd : b64_scope.
Infix "-" := fsub : b64_scope.
Infix "*" := fmul : b64_scope.
Infix "/" := fdiv : b64_scope.
Notation "- x" := (fneg x) : b64_scope.
Infix "==" := feqb (at level 70, no associativity) : b64_scope.
Infix "<?" := fltb : b64_scope.
Infix "<=?" := fleb : b64_scope.

(** [math.isfinite], [math.isinf], [math.isnan] *)
Definition isfinite (x : float) : bool :=
  match x with
  | S754_zero _ | S754_finite _ _ _ => true
  | _ => false
  end.

Definition isinf (x : float) : bool :=
  match x with S754_infinity _ => true | _ => false end.

Definition isnan (x : float) : bool :=
  match x with S754_nan => true | _ => false end.

Definition sign_bit (x : float) : bool :=
  match x with
  | S754_zero s | S754_infinity s | S754_finite s _ _ => s
  | S754_nan => false
  end.

(** The quotient [n / d] of two integers rounded to the nearest binary64
    (ties to even): what Python's [float] does with the text of a decimal
    literal, and what [int / int] does.  The quotient is taken with at
    least 66 significant bits and a sticky last bit, so the single rounding
    of [binary_normalize] is the correct one. *)
Definition of_ratio (n : Z) (d : positive) : float :=
  match n with
  | Z0 => S754_zero false
  | _ =>
      let a := Z.abs n in
      let s := Z.max 0 (66 + Z.log2 (Zpos d) - Z.log2 a) in
      let num := Z.shiftl a s in
      let q := (num / Zpos d)%Z in
      let sticky := if (num mod Zpos d =? 0)%Z then 0%Z else 1%Z in
      let m := (2 * q + sticky)%Z in
      binary_normalize prec emax (if (n <? 0)%Z then (- m)%Z else m)
                       (- s - 1) false
  end.

(** [float(k)] for a Python [int]. *)
Definition of_int (k : Z) : float := binary_normalize prec emax k 0 false.

(** A decimal literal [m * 10^e] of the source, as Python reads it. *)
Definition dec (m e : Z) : float :=
  if (0 <=? e)%Z then of_ratio (m * 10 ^ e) 1
  else of_ratio m (Z.to_pos (10 ^ (- e))).

(** The exact value of a finite float as a fraction. *)
Definition exact (x : float) : option (Z * positive) :=
  match x with
  | S754_zero _ => Some (0%Z, 1%positive)
  | S754_finite s m e =>
      let n := cond_Zopp s (Zpos m) in
      Some (if (0 <=? e)%Z then ((n * 2 ^ e)%Z, 1%positive)
            else (n, Z.to_pos (2 ^ (- e))))
  | _ => None
  end.

(** [int(x)]: truncation towards zero; [OverflowError] on an infinity,
    [ValueError] on a NaN. *)
Definition int_of_float (x : float) : result Z :=
  match x with
  | S754_infinity _ => Raise OverflowError
  | S754_nan => Raise ValueError
  | _ =>
      match exact x with
      | Some (n, d) => Ok (Z.quot n (Zpos d))
      | None => Raise ValueError
      end
  end.

(** [math.ceil(x)] *)
Definition math_ceil (x : float) : result Z :=
  match x with
  | S754_infinity _ => Raise OverflowError
  | S754_nan => Raise ValueError
  | _ =>
      match exact x with
      | Some (n, d) => Ok (- ((- n) / Zpos d))%Z
      | None => Raise ValueError
      end
  end.

(** [x == int(x)] when [x] is finite: Python compares a float and an int
    exactly. *)
Definition is_integral (x : float) : bool :=
  match exact x with
  | Some (n, d) => (n mod Zpos d =? 0)%Z
  | None => false
  end.

(** The integer nearest to [n / d], ties to the even one. *)
Definition round_half_even (n : Z) (d : positive) : Z :=
  let q := (n / Zpos d)%Z in
  let r := (n mod Zpos d)%Z in
  match (2 * r ?= Zpos d)%Z with
  | Lt => q
  | Gt => (q + 1)%Z
  | Eq => if Z.even q then q else (q + 1)%Z
  end.

(** [round(x, ndigits)] for a finite [x] and [0 <= ndigits]: the decimal
    with [ndigits] places nearest to the exact value of [x] (ties to even),
    read back as a float; a zero keeps the sign of [x]. *)
Definition py_round (x : float) (ndigits : Z) : float :=
  match exact x with
  | Some (n, d) =>
      let k := round_half_even (n * 10 ^ ndigits) d in
      if (k =? 0)%Z then S754_zero (sign_bit x)
      else of_ratio k (Z.to_pos (10 ^ ndigits))
  | None => x
  end.

(** [str(k)] for a Python [int]. *)
Definition str_of_int (k : Z) : str :=
  lit (NilZero.string_of_int (Z.to_int k)).

(** The format specification [.{digits}f] applied to a finite [x]. *)
Definition format_fixed (x : float) (digits : nat) : str :=
  match exact x with
  | Some (n, d) =>
      let k := round_half_even (Z.abs n * 10 ^ Z.of_nat digits) d in
      let ds := str_of_int k in
      let ds := repeat 48%N (S digits - List.length ds) ++ ds in
      let int_len := (List.length ds - digits)%nat in
      (if sign_bit x then lit "-" else [])
        ++ firstn int_len ds
        ++ (match digits with O => [] | _ => lit "." end)
        ++ skipn int_len ds
  | None => []
  end.

(** [str(x)] for a float that is not finite. *)
Definition str_of_nonfinite (x : float) : str :=
  match x with
  | S754_infinity false => lit "inf"
  | S754_infinity true => lit "-inf"
  | _ => lit "nan"
  end.

(** The float literals of the source. *)
Definition f0 : float := S754_zero false.
Definition f1 : float := Eval vm_compute in dec 1 0.
Definition f2 : float := Eval vm_compute in dec 2 0.
Definition inf : float := S754_infinity false.
Definition eps12 : float := Eval vm_compute in dec 1 (-12).    (* 1e-12 *)
Definition cap12 : float := Eval vm_compute in dec 1 12.       (* 1e12 *)

(** ** types.py *)

Record FunctionTerm : Type := mkFunctionTerm {
  coef : float;
  func : str;
  vars : list str;
  shifts : list float
}.

Inductive Term : Type :=
| FunctionTerm_ (t : FunctionTerm)
| ConstantTerm (coef : float).

Record Recurrence : Type := mkRecurrence {
  lhs : FunctionTerm;
  rhs : list Term
}.

(** [FunctionTerm(coef=..., func=..., vars=..., shifts=...)]: the generated
    [__init__] followed by [__post_init__]. *)
Definition FunctionTerm_init (coef : float) (func : str) (vars : list str)
  (shifts : list float) : result FunctionTerm :=
  if negb (Nat.eqb (List.length vars) (List.length shifts)) then Raise ValueError
  else Ok (mkFunctionTerm coef func vars shifts).

(** [Recurrence(lhs=..., rhs=...)] *)
Definition Recurrence_init (lhs : FunctionTerm) (rhs : list Term)
  : result Recurrence :=
  if negb (coef lhs == f1)%b64 then Raise ValueError
  else if existsb (fun s => negb (s == f0)%b64) (shifts lhs) then Raise ValueError
  else Ok (mkRecurrence lhs rhs).

Definition Root : Type := float.

(** ** utils.py *)

Definition snap_int (val : float) (ndigits : Z) : result float :=
  if negb (isfinite val) then Ok val
  else
    let rounded := py_round val ndigits in
    i <- int_of_float rounded ;;
    if is_integral rounded then Ok (of_int i)
    else Ok rounded.

Definition format_number (x : float) (digits : nat) : result str :=
  if negb (isfinite x) then Ok (str_of_nonfinite x)
  else
    let factor := (10 ^ Z.of_nat digits)%Z in
    c <- math_ceil (x * of_int factor)%b64 ;;
    let rounded := of_ratio c (Z.to_pos factor) in
    if isinf rounded then Raise OverflowError
    else
      let formatted := format_fixed rounded digits in
      Ok (rstrip_char 46 (rstrip_char 48 formatted)).

(** ** formatter.py *)

Definition _format_constant (coef : float) : result str :=
  i <- int_of_float coef ;;
  if is_integral coef then Ok (str_of_int i)
  else format_number coef 5.

(** The loop over [zip(term.vars, term.shifts)]. *)
Fixpoint format_args (vs : list str) (ss : list float) : result (list str) :=
  match vs, ss with
  | var :: vs', shift :: ss' =>
      a <- (if (shift == f0)%b64 then Ok var
            else if (shift <? f0)%b64 then
              shift_str <- _format_constant (- shift)%b64 ;;
              Ok (var ++ lit "-" ++ shift_str)
            else
              shift_str <- _format_constant shift ;;
              Ok (var ++ lit "+" ++ shift_str)) ;;
      rest <- format_args vs' ss' ;;
      Ok (a :: rest)
  | _, _ => Ok []
  end.

Definition _format_function_term (term : FunctionTerm) : result str :=
  coef_str <- (if (coef term == f1)%b64 then Ok []
               else if (coef term == - f1)%b64 then Ok (lit "-")
               else c <- _format_constant (coef term) ;; Ok (c ++ lit "*")) ;;
  args <- format_args (vars term) (shifts term) ;;
  Ok (coef_str ++ func term ++ lit "(" ++ join (lit ", ") args ++ lit ")").

Definition format_term (term : Term) : result str :=
  match term with
  | ConstantTerm c => _format_constant c
  | FunctionTerm_ t => _format_function_term t
  end.

Definition format_recurrence (rec : Recurrence) : result str :=
  let lhs := func (lhs rec) ++ lit "(" ++ join (lit ", ") (vars (lhs rec)) ++ lit ")" in
  match rhs rec with
  | [] => Ok (lhs ++ lit " = 0")
  | _ =>
      rhs_parts <- mapM format_term (rhs rec) ;;
      let rhs := join (lit " + ") rhs_parts in
      let rhs := replace (lit " + -") (lit " - ") rhs in
      Ok (lhs ++ lit " = " ++ rhs)
  end.

(** U+221E INFINITY *)
Definition infinity_sign : N := 8734.

Definition format_asymptotics (rec : Recurrence) (root : Root) : result str :=
  match vars (lhs rec) with
  | [var] =>
      if isinf root then Ok (lit "O(" ++ [infinity_sign] ++ lit ")")
      else if (root == f1)%b64 then Ok (lit "O(1)")
      else
        base <- format_number root 5 ;;
        Ok (lit "O(" ++ base ++ lit "^" ++ var ++ lit ")")
  | _ => Raise ValueError
  end.

(** ** parser.py: [_combine_terms]

    [function_map] is a Python [dict] keyed by the tuple of shifts.  A
    [dict] keeps its keys in insertion order, and assigning to a key it
    already holds keeps that key and its position; two tuples are the same
    key when they have the same length and their components compare equal
    with [==] (so [0.0] and [-0.0] are one key). *)

Definition key : Type := list float.

Fixpoint key_eqb (a b : key) : bool :=
  match a, b with
  | [], [] => true
  | x :: a', y :: b' => (x == y)%b64 && key_eqb a' b'
  | _, _ => false
  end.

Definition dict : Type := list (key * float).

(** [m.get(k, default)] *)
Fixpoint dict_get (m : dict) (k : key) (default : float) : float :=
  match m with
  | [] => default
  | (k', v) :: m' => if key_eqb k' k then v else dict_get m' k default
  end.

(** [m[k] = v] *)
Fixpoint dict_set (m : dict) (k : key) (v : float) : dict :=
  match m with
  | [] => [(k, v)]
  | (k', v') :: m' =>
      if key_eqb k' k then (k', v) :: m' else (k', v') :: dict_set m' k v
  end.

(** The first loop of [_combine_terms]. *)
Fixpoint combine_loop (raw_terms : list Term) (constant_sum : float)
  (function_map : dict) : float * dict :=
  match raw_terms with
  | [] => (constant_sum, function_map)
  | ConstantTerm c :: rest =>
      combine_loop rest (constant_sum + c)%b64 function_map
  | FunctionTerm_ t :: rest =>
      let key := shifts t in
      combine_loop rest constant_sum
        (dict_set function_map key (dict_get function_map key f0 + coef t)%b64)
  end.

(** The second loop, over [function_map.items()]. *)
Fixpoint emit_function_terms (items : dict) (vars_list : list str) (func : str)
  : result (list Term) :=
  match items with
  | [] => Ok []
  | (shifts_tuple, coef) :: rest =>
      if (fabs coef <? eps12)%b64 then emit_function_terms rest vars_list func
      else
        t <- FunctionTerm_init coef func vars_list shifts_tuple ;;
        ts <- emit_function_terms rest vars_list func ;;
        Ok (FunctionTerm_ t :: ts)
  end.

Definition _combine_terms (raw_terms : list Term) (vars_list : list str)
  (func : str) : result (list Term) :=
  let (constant_sum, function_map) := combine_loop raw_terms f0 [] in
  let terms :=
    if (eps12 <? fabs constant_sum)%b64 then [ConstantTerm constant_sum] else [] in
  fts <- emit_function_terms function_map vars_list func ;;
  Ok (terms ++ fts).

(** ** solver.py *)

(** What solver.py imports from [numpy], [math] and [scipy.optimize].
    An exception raised by [root_scalar] is [None]; otherwise it returns
    [sol.converged] and [sol.root]. *)
Class Numerics : Type := {
  np_log : float -> float;
  np_exp : float -> float;
  np_sum : list float -> float;
  math_log : float -> float;
  math_exp : float -> float
}.

Class SciPy : Type := {
  root_scalar_newton :
    (float -> float) -> (float -> float) -> float -> nat -> option (bool * float);
  root_scalar_brentq :
    (float -> float) -> float -> float -> option (bool * float)
}.

Definition PENALTY : float := Eval vm_compute in dec 1 6.          (* 1e6 *)
Definition f1_01 : float := Eval vm_compute in dec 101 (-2).       (* 1.01 *)
Definition f1_000001 : float := Eval vm_compute in dec 1000001 (-6). (* 1.000001 *)

(** Python's [max(a, b)] and [min(a, b)]: the first argument unless the
    second is strictly better. *)
Definition py_max (a b : float) : float := if (a <? b)%b64 then b else a.
Definition py_min (a b : float) : float := if (b <? a)%b64 then b else a.

(** [np.min]: a NaN when there is one. *)
Definition np_min (d : list float) : float :=
  match d with
  | [] => S754_nan
  | x :: rest =>
      fold_left (fun acc y =>
                   if isnan acc then acc
                   else if isnan y then y
                   else if (y <? acc)%b64 then y else acc) rest x
  end.

(** [np.clip(x, lo, hi)] *)
Definition np_clip (x lo hi : float) : float := py_min (py_max lo x) hi.

(** Element-wise product of two arrays of one length. *)
Fixpoint map2 {A B C : Type} (f : A -> B -> C) (xs : list A) (ys : list B) : list C :=
  match xs, ys with
  | x :: xs', y :: ys' => f x y :: map2 f xs' ys'
  | _, _ => []
  end.

(** The [g(b) <= 0] test of both bracket searches. *)
Definition bracket_ok (fb : float) : bool := isfinite fb && (fb <=? f0)%b64.

Section Solver.
Context {NP : Numerics} {SP : SciPy}.

Definition _eval_poly_and_derivative (x : float) (deltas : list float)
  : float * float :=
  if (x <=? f0)%b64 then (inf, inf)
  else
    let lx := np_log x in
    let exp_terms := map (fun d => np_exp (- d * lx)%b64) deltas in
    let s := np_sum exp_terms in
    let w := np_sum (map2 fmul deltas exp_terms) in
    let g := (s - f1)%b64 in
    let gp := (- w / x)%b64 in
    if negb (isfinite g) || negb (isfinite gp) then (inf, inf)
    else (g, gp).

(** The [for _ in range(40)] loop of [find_root]. *)
Fixpoint expand_bracket (g : float -> float) (n : nat) (bb : float) : option float :=
  match n with
  | O => None
  | S n' =>
      let bb := py_min (bb * f2)%b64 cap12 in
      if bracket_ok (g bb) then Some bb else expand_bracket g n' bb
  end.

Definition find_root (deltas : list float) (x0 : option float) : result float :=
  let d := deltas in
  match d with
  | [] => Ok inf
  | [_] => Ok f1
  | _ =>
      let m := Z.of_nat (List.length d) in
      let min_delta := np_min d in
      if (min_delta <=? f0)%b64 then Ok PENALTY
      else
        let g := fun x => fst (_eval_poly_and_derivative x d) in
        let log_m := math_log (of_int m) in
        let b_cap := cap12 in
        let exponent := (log_m / min_delta)%b64 in
        let log_cap := math_log (b_cap / f1_01)%b64 in
        let b :=
          if negb (isfinite exponent) || (log_cap <=? exponent)%b64 then b_cap
          else py_max f2 (math_exp exponent * f1_01)%b64 in
        match (if bracket_ok (g b) then Some b else expand_bracket g 40 b) with
        | None => Ok PENALTY
        | Some b =>
            let newton :=
              match x0 with
              | Some x0 =>
                  if isfinite x0 then
                    let x0c := np_clip x0 f1 b in
                    match root_scalar_newton g
                            (fun x => snd (_eval_poly_and_derivative x d)) x0c 20 with
                    | Some (converged, root) =>
                        if converged && (f1 <=? root)%b64
                           && (root <=? b * f1_000001)%b64
                        then Some root else None
                    | None => None
                    end
                  else None
              | None => None
              end in
            match newton with
            | Some root => Ok root
            | None =>
                match root_scalar_brentq g f1 b with
                | None => Raise ValueError
                | Some (converged, root) =>
                    if converged then Ok root else Ok PENALTY
                end
            end
        end
  end.

Definition function_terms (ts : list Term) : list FunctionTerm :=
  flat_map (fun t => match t with FunctionTerm_ f => [f] | ConstantTerm _ => [] end) ts.

(** [deltas.append(-term.shifts[0])] *)
Definition delta_of (term : FunctionTerm) : result float :=
  match shifts term with
  | s :: _ => Ok (- s)%b64
  | [] => Raise IndexError
  end.

(** The closure [g] of [solve_recurrence]. *)
Definition g_rec (coefs deltas : list float) (x : float) : float :=
  if (x <=? f0)%b64 then inf
  else
    let lx := np_log x in
    let terms := map2 (fun c d => c * np_exp (- d * lx))%b64 coefs deltas in
    (np_sum terms - f1)%b64.

(** The [for _ in range(50)] loop of [solve_recurrence]; [None] is either
    of its two [return PENALTY]. *)
Fixpoint upper_bracket (g : float -> float) (n : nat) (b : float) : option float :=
  match n with
  | O => None
  | S n' =>
      if bracket_ok (g b) then Some b
      else
        let b := (b * f2)%b64 in
        if (cap12 <? b)%b64 then None else upper_bracket g n' b
  end.

Definition solve_recurrence (rec : Recurrence) : result Root :=
  let vars_list := vars (lhs rec) in
  if negb (Nat.eqb (List.length vars_list) 1) then Raise ValueError
  else
    let func_terms := function_terms (rhs rec) in
    match func_terms with
    | [] => Ok f1
    | _ =>
        let coefs := map coef func_terms in
        deltas <- mapM delta_of func_terms ;;
        if existsb (fun d => d <=? f0)%b64 deltas then Ok PENALTY
        else
          let g := g_rec coefs deltas in
          let g1 := g f1 in
          if (fabs g1 <? eps12)%b64 then Ok f1
          else if (g1 <? f0)%b64 then Ok PENALTY
          else
            match upper_bracket g 50 f2 with
            | None => Ok PENALTY
            | Some b =>
                match root_scalar_brentq g f1 b with
                | Some (true, root) =>
                    match snap_int root 6 with
                    | Ok r => Ok r
                    | Raise _ => Ok PENALTY
                    end
                | _ => Ok PENALTY
                end
            end
    end.

End Solver.

(** ** parser.py *)

Section Parser.
Context {U : Unicode}.

(** [$] without [MULTILINE]: the end of the string, or just before a
    newline that ends it. *)
Definition at_end (rest : str) : bool :=
  match rest with
  | [] => true
  | [c] => N.eqb c 10
  | _ => false
  end.

(** [[\p{L}\p{N}_{}]] *)
Definition ident_char (c : N) : bool :=
  is_L c || is_N c || N.eqb c 95 || N.eqb c 123 || N.eqb c 125.

(** [IDENTIFIER_PATTERN.match(name)] *)
Definition is_valid_identifier (name : str) : bool :=
  match name with
  | c :: rest =>
      is_L c && (let (_, tail) := span ident_char rest in at_end tail)
  | [] => false
  end.

(** A match of [\d+(?:\.\d+)?]: the digits before and after the point.
    Each [\d+] takes every digit there is, and the fraction is taken
    whenever a point and a digit follow: a shorter match leaves a digit or
    the point next, where none of the patterns below can go on. *)
Record number : Type := mkNumber {
  negative : bool;
  int_digits : str;
  frac_digits : str
}.

Definition unsigned_prefix (neg : bool) (s : str) : option (number * str) :=
  let (ip, r) := span is_d s in
  match ip with
  | [] => None
  | _ =>
      match r with
      | 46 :: r1 =>
          let (fp, r2) := span is_d r1 in
          match fp with
          | [] => Some (mkNumber neg ip [], r)
          | _ => Some (mkNumber neg ip fp, r2)
          end
      | _ => Some (mkNumber neg ip [], r)
      end
  end%N.

(** [-?\d+(?:\.\d+)?] at the start of [s], and what follows it. *)
Definition number_prefix (s : str) : option (number * str) :=
  match s with
  | 45 :: s' => unsigned_prefix true s'
  | _ => unsigned_prefix false s
  end%N.

(** [[+-]\d+(?:\.\d+)?] at the start of [s]. *)
Definition signed_prefix (s : str) : option (number * str) :=
  match s with
  | 43 :: s' => unsigned_prefix false s'
  | 45 :: s' => unsigned_prefix true s'
  | _ => None
  end%N.

(** [NUMBER_PATTERN.match(s)] *)
Definition match_number (s : str) : option number :=
  match number_prefix s with
  | Some (n, rest) => if at_end rest then Some n else None
  | None => None
  end.

Definition digits_value (ds : str) : Z :=
  fold_left (fun acc c => (acc * 10 + digit_value c)%Z) ds 0%Z.

(** [float(s)] for a string [s] that matched one of the number patterns:
    the double nearest to the decimal. *)
Definition float_of_number (n : number) : float :=
  let m := digits_value (int_digits n ++ frac_digits n) in
  if (m =? 0)%Z then S754_zero (negative n)
  else of_ratio (if negative n then (- m)%Z else m)
                (Z.to_pos (10 ^ Z.of_nat (List.length (frac_digits n)))).

(** The left-hand side pattern of [parse_recurrence]: one or more
    characters other than an opening parenthesis (group 1), an opening
    parenthesis, any characters other than a closing parenthesis (group
    2), a closing parenthesis, the end. *)
Definition match_call (s : str) : option (str * str) :=
  let (name, r) := span (fun c => negb (N.eqb c 40)) s in
  match name, r with
  | _ :: _, _ :: r1 =>
      let (args, r2) := span (fun c => negb (N.eqb c 41)) r1 in
      match r2 with
      | _ :: tail => if at_end tail then Some (name, args) else None
      | [] => None
      end
  | _, _ => None
  end.

(** [term_pattern.match(summand)]: groups 1 (absent when the coefficient
    is), 2 and 3.  The coefficient is tried first; when what follows it is
    not [name(args)] the match fails, as the identifier cannot start at a
    sign or a digit either. *)
Definition match_term (s : str) : option (option number * str * str) :=
  let (coef, r) :=
    match number_prefix s with
    | Some (n, r) => (Some n, match r with 42%N :: r' => r' | _ => r end)
    | None => (None, s)
    end in
  match r with
  | c :: r1 =>
      if is_L c then
        let (body, r2) := span ident_char r1 in
        match r2 with
        | 40%N :: r3 =>
            let (args, r4) := span (fun c => negb (N.eqb c 41)) r3 in
            match r4 with
            | _ :: tail =>
                if at_end tail then Some (coef, c :: body, args) else None
            | [] => None
            end
        | _ => None
        end
      else None
  | [] => None
  end.

Fixpoint split_rhs_loop (s : str) (depth : nat) (buf : str) (out : list str)
  : list str :=
  match s with
  | [] => match buf with [] => out | _ => out ++ [buf] end
  | ch :: s' =>
      if N.eqb ch 40 then split_rhs_loop s' (S depth) (buf ++ [ch]) out
      else if N.eqb ch 41 then split_rhs_loop s' (Nat.pred depth) (buf ++ [ch]) out
      else if N.eqb ch 43 && Nat.eqb depth 0 then
        split_rhs_loop s' depth [] (match buf with [] => out | _ => out ++ [buf] end)
      else split_rhs_loop s' depth (buf ++ [ch]) out
  end.

Definition _split_rhs (s : str) : list str := split_rhs_loop s 0 [] [].

Definition _parse_shift (arg var summand : str) : result float :=
  let bad := Raise (ParseError (InvalidArgument arg summand)) in
  if starts_with var arg then
    let rest := skipn (List.length var) arg in
    if at_end rest then Ok f0
    else match signed_prefix rest with
         | Some (n, tail) => if at_end tail then Ok (float_of_number n) else bad
         | None => bad
         end
  else bad.

(** The loop [for i, arg in enumerate(args_raw)]; both lists have one
    length when it runs. *)
Fixpoint parse_shifts (args_raw vars_list : list str) (summand : str)
  : result (list float) :=
  match args_raw, vars_list with
  | arg :: args', var :: vars' =>
      shift <- _parse_shift arg var summand ;;
      rest <- parse_shifts args' vars' summand ;;
      Ok (shift :: rest)
  | _, _ => Ok []
  end.

Definition _parse_term (summand func : str) (vars_list : list str) : result Term :=
  match match_number summand with
  | Some n => Ok (ConstantTerm (float_of_number n))
  | None =>
      match match_term summand with
      | None => Raise (ParseError (InvalidTerm summand))
      | Some (coef_str, fn_name, args_str) =>
          let coef := match coef_str with
                      | Some n => float_of_number n
                      | None => f1
                      end in
          if negb (is_valid_identifier fn_name) then
            Raise (ParseError (InvalidFunctionName fn_name))
          else if negb (str_eqb fn_name func) then
            Raise (ParseError (DifferentFunctionName summand fn_name))
          else
            let args_raw := map strip (split 44 args_str) in
            if negb (Nat.eqb (List.length args_raw) (List.length vars_list)) then
              Raise (ParseError (WrongArity summand (List.length args_raw)
                                            (List.length vars_list)))
            else
              shifts <- parse_shifts args_raw vars_list summand ;;
              t <- FunctionTerm_init coef func vars_list shifts ;;
              Ok (FunctionTerm_ t)
      end
  end.

(** The loop [for arg in raw_args] that fills [vars_list]. *)
Fixpoint check_vars (raw_args : list str) (vars_list : list str) : result (list str) :=
  match raw_args with
  | [] => Ok vars_list
  | arg :: rest =>
      if negb (is_valid_identifier arg) then
        Raise (ParseError (InvalidVariableName arg))
      else if existsb (str_eqb arg) vars_list then
        Raise (ParseError (DuplicateVariableName arg))
      else check_vars rest (vars_list ++ [arg])
  end.

Definition nonempty (s : str) : bool :=
  match s with [] => false | _ => true end.

(** Everything [parse_recurrence] does up to [raw_terms]: the signature
    of the left-hand side and the summands as written. *)
Definition parse_raw (text : str) : result (FunctionTerm * list Term) :=
  let cleaned := filter (fun c => negb (isspace c)) text in
  match cleaned with
  | [] => Raise (ParseError EmptyInput)
  | _ =>
      match split 61 cleaned with
      | [lhs_str; rhs_str] =>
          if negb (nonempty lhs_str) then Raise (ParseError EmptyLhs)
          else if negb (nonempty rhs_str) then Raise (ParseError EmptyRhs)
          else
            match match_call lhs_str with
            | None => Raise (ParseError (InvalidLhs lhs_str))
            | Some (func, raw_args_str) =>
                if negb (is_valid_identifier func) then
                  Raise (ParseError (InvalidFunctionName func))
                else
                  let raw_args :=
                    filter nonempty (map strip (split 44 raw_args_str)) in
                  match raw_args with
                  | [] => Raise (ParseError (NoArguments lhs_str))
                  | _ =>
                      vars_list <- check_vars raw_args [] ;;
                      lhs <- FunctionTerm_init f1 func vars_list
                               (repeat f0 (List.length vars_list)) ;;
                      let summands :=
                        filter nonempty (map strip (_split_rhs rhs_str)) in
                      match summands with
                      | [] => Raise (ParseError EmptyRhs)
                      | _ =>
                          raw_terms <-
                            match summands with
                            | [s] =>
                                match match_number s with
                                | Some n => Ok [ConstantTerm (float_of_number n)]
                                | None =>
                                    mapM (fun s => _parse_term s func vars_list)
                                         summands
                                end
                            | _ =>
                                mapM (fun s => _parse_term s func vars_list)
                                     summands
                            end ;;
                          Ok (lhs, raw_terms)
                      end
                  end
            end
      | _ => Raise (ParseError ExpectedOneEq)
      end
  end.

Definition parse_recurrence (text : str) : result Recurrence :=
  p <- parse_raw text ;;
  let (lhs, raw_terms) := p in
  terms <- _combine_terms raw_terms (vars lhs) (func lhs) ;;
  Recurrence_init lhs terms.

End Parser.

(** ** What the solver needs of [numpy] and [math]

    C99 Annex F, which both libraries follow: [log(1)] is [+0] and
    [exp(+-0)] is [1], exactly.  Summing an array of one or two non-zero
    elements is the element, or one addition. *)

Definition nonzero (x : float) : bool :=
  match x with S754_zero _ => false | _ => true end.

Class NumericsLaws (NP : Numerics) : Prop := {
  np_log_one : np_log f1 = f0;
  np_exp_zero : forall s, np_exp (S754_zero s) = f1;
  np_sum_single : forall x, nonzero x = true -> np_sum [x] = x;
  np_sum_pair : forall x y, nonzero x = true -> np_sum [x; y] = (x + y)%b64
}.

(** ** Reference instances

    Executable instances of the three interfaces, used to run the model on
    concrete inputs: the Basic Latin block on its own, [exp] and [log] by
    argument reduction and a power series, a plain bisection and a plain
    Newton iteration.  Nothing is claimed about them beyond what is proved
    below. *)

Module Reference.

#[export] Instance basic_latin : Unicode := {|
  uc_category := fun _ => OtherChar;
  uc_isspace := fun _ => false
|}.

Definition ln2 : float := Eval vm_compute in dec 6931471805599453 (-16).
Definition sqrt_half : float := Eval vm_compute in dec 7071067811865476 (-16).

(** [1 + r/k * acc], from [k = n] down to [k = 1]. *)
Fixpoint exp_series (r : float) (k : nat) (acc : float) : float :=
  match k with
  | O => acc
  | S k' => exp_series r k' (f1 + r / of_int (Z.of_nat k) * acc)%b64
  end.

Definition exp (x : float) : float :=
  match x with
  | S754_nan => S754_nan
  | S754_infinity false => inf
  | S754_infinity true => f0
  | S754_zero _ => f1
  | S754_finite _ _ _ =>
      if (dec 7098 (-1) <? x)%b64 then inf
      else if (x <? dec (-7452) (-1))%b64 then f0
      else
        match exact (x / ln2)%b64 with
        | Some (n, d) =>
            let k := round_half_even n d in
            let r := (x - of_int k * ln2)%b64 in
            SFldexp prec emax (exp_series r 22 f1) k
        | None => S754_nan
        end
  end.

(** [1/(2k+1) + s2 * acc], from [k = n] down to [k = 0]. *)
Fixpoint atanh_series (s2 : float) (k : nat) (acc : float) : float :=
  let term := (f1 / of_int (2 * Z.of_nat k + 1) + s2 * acc)%b64 in
  match k with
  | O => term
  | S k' => atanh_series s2 k' term
  end.

Definition log (x : float) : float :=
  match x with
  | S754_nan => S754_nan
  | S754_infinity false => inf
  | S754_infinity true => S754_nan
  | S754_zero _ => S754_infinity true
  | S754_finite true _ _ => S754_nan
  | S754_finite false _ _ =>
      let (m, e) := SFfrexp prec emax x in
      let (m, e) := if (m <? sqrt_half)%b64 then ((m * f2)%b64, (e - 1)%Z) else (m, e) in
      let s := ((m - f1) / (m + f1))%b64 in
      (of_int e * ln2 + f2 * s * atanh_series (s * s) 14 f0)%b64
  end.

Definition sum (xs : list float) : float :=
  match xs with
  | [] => f0
  | x :: rest => fold_left fadd rest x
  end.

#[export] Instance numerics : Numerics := {|
  np_log := log;
  np_exp := exp;
  np_sum := sum;
  math_log := log;
  math_exp := exp
|}.

(** Bisection on [[a, b]] where [f a] is positive or zero and [f b]
    negative or zero, or the other way round. *)
Fixpoint bisect (f : float -> float) (n : nat) (a b : float) (fa_pos : bool) : float :=
  let mid := ((a + b) / f2)%b64 in
  match n with
  | O => mid
  | S n' =>
      let fm := f mid in
      if (fm == f0)%b64 then mid
      else if Bool.eqb (f0 <? fm)%b64 fa_pos then bisect f n' mid b fa_pos
      else bisect f n' a mid fa_pos
  end.

Definition brentq (f : float -> float) (a b : float) : option (bool * float) :=
  let fa := f a in
  let fb := f b in
  if (f0 <? fa * fb)%b64 then None
  else if (fa == f0)%b64 then Some (true, a)
  else if (fb == f0)%b64 then Some (true, b)
  else Some (true, bisect f 100 a b (f0 <? fa)%b64).

Fixpoint newton (f fprime : float -> float) (x : float) (maxiter : nat)
  : option (bool * float) :=
  match maxiter with
  | O => Some (false, x)
  | S n =>
      let fp := fprime x in
      if (fp == f0)%b64 then Some (false, x)
      else
        let x' := (x - f x / fp)%b64 in
        if (fabs (x' - x) <=? dec 148 (-10))%b64 then Some (true, x')
        else newton f fprime x' n
  end.

#[export] Instance scipy : SciPy := {|
  root_scalar_newton := newton;
  root_scalar_brentq := brentq
|}.

End Reference.

(** The model run with the reference instances. *)
Definition ref_parse : str -> result Recurrence :=
  @parse_recurrence Reference.basic_latin.
Definition ref_solve : Recurrence -> result Root :=
  @solve_recurrence Reference.numerics Reference.scipy.
Definition ref_find_root : list float -> option float -> result float :=
  @find_root Reference.numerics Reference.scipy.

(** ** The normal form the specification describes

    Written from the words of the specification, to be compared with
    [_combine_terms]: the sum of the constants, then one function term per
    distinct shift vector in the order of first occurrence, each with the sum
    of the coefficients of its group. *)

Definition constant_total (raw_terms : list Term) : float :=
  fold_left (fun acc t =>
               match t with
               | ConstantTerm c => (acc + c)%b64
               | FunctionTerm_ _ => acc
               end) raw_terms f0.

(** The coefficients of the terms whose shift vector is [k], added to [v0]
    from left to right. *)
Definition group_fold (k : key) (raw_terms : list Term) (v0 : float) : float :=
  fold_left (fun acc t =>
               match t with
               | FunctionTerm_ f =>
                   if key_eqb k (shifts f) then (acc + coef f)%b64 else acc
               | ConstantTerm _ => acc
               end) raw_terms v0.

Definition group_total (k : key) (raw_terms : list Term) : float :=
  group_fold k raw_terms f0.

(** The shift vectors of [raw_terms] that are not among [seen], each once,
    in the order of first occurrence. *)
Fixpoint distinct_keys (raw_terms : list Term) (seen : list key) : list key :=
  match raw_terms with
  | [] => []
  | ConstantTerm _ :: rest => distinct_keys rest seen
  | FunctionTerm_ f :: rest =>
      if existsb (fun k => key_eqb k (shifts f)) seen
      then distinct_keys rest seen
      else shifts f :: distinct_keys rest (seen ++ [shifts f])
  end.

Definition constant_part (raw_terms : list Term) : list Term :=
  if (eps12 <? fabs (constant_total raw_terms))%b64
  then [ConstantTerm (constant_total raw_terms)] else [].

(** [keep] decides from the grouped coefficient whether its term is
    emitted. *)
Definition normal_form (keep : float -> bool) (raw_terms : list Term)
  (vars_list : list str) (func : str) : list Term :=
  constant_part raw_terms ++
  map (fun k => FunctionTerm_
                  (mkFunctionTerm (group_total k raw_terms) func vars_list k))
      (filter (fun k => keep (group_total k raw_terms))
              (distinct_keys raw_terms [])).

(** The test of the specification: the magnitude exceeds [1e-12]. *)
Definition exceeds_eps (c : float) : bool := (eps12 <? fabs c)%b64.

(** The test of [_combine_terms]: the magnitude is not below [1e-12]. *)
Definition not_below_eps (c : float) : bool := negb (fabs c <? eps12)%b64.

(** No component is a NaN. *)
Definition valid_key (k : key) : bool := forallb (fun s => negb (isnan s)) k.

(** Every function term has one shift per variable, none a NaN: what
    [_parse_term] returns. *)
Definition well_shifted (vars_list : list str) (t : Term) : Prop :=
  match t with
  | FunctionTerm_ f =>
      List.length (shifts f) = List.length vars_list /\ valid_key (shifts f) = true
  | ConstantTerm _ => True
  end.

(** ** The solver in exact arithmetic

    [solve_recurrence] once more, with the real numbers in place of the
    doubles: [np.log] and [np.exp] are [ln] and [exp], the sum is exact, and
    the bracketed root finder returns a zero of [g] in the bracket or
    nothing.  The terms are the pairs [(coef, delta)] of the retained
    function terms.  All evaluations of [g] are at points from [1] on, so
    the guard for [x <= 0] has no counterpart. *)

Module Exact.
Local Open Scope R_scope.

Definition PENALTY : R := 1000000.
Definition eps12 : R := / 10 ^ 12.
Definition cap12 : R := 10 ^ 12.

Definition round_half_even (x : R) : Z :=
  let q := Int_part x in
  let r := x - IZR q in
  if Rlt_dec r (1 / 2) then q
  else if Rlt_dec (1 / 2) r then (q + 1)%Z
  else if Z.even q then q else (q + 1)%Z.

Definition py_round (x : R) (ndigits : nat) : R :=
  IZR (round_half_even (x * 10 ^ ndigits)) / 10 ^ ndigits.

(** [snap_int]: an integer is equal to its own integer part, so both
    branches return [rounded]. *)
Definition snap_int (val : R) : R :=
  let rounded := py_round val 6 in
  if Req_dec_T rounded (IZR (Int_part rounded)) then IZR (Int_part rounded)
  else rounded.

Definition g_rec (coefs deltas : list R) (x : R) : R :=
  fold_right Rplus 0 (map2 (fun c d => c * exp (- d * ln x)) coefs deltas) - 1.

Fixpoint upper_bracket (g : R -> R) (n : nat) (b : R) : option R :=
  match n with
  | O => None
  | S n' =>
      if Rle_dec (g b) 0 then Some b
      else
        let b := b * 2 in
        if Rlt_dec cap12 b then None else upper_bracket g n' b
  end.

Definition nonpositive (d : R) : bool := if Rle_dec d 0 then true else false.

Section ExactSolver.
(** [root_scalar(g, bracket=(a, b), method='brentq')]: [Some root] when it
    converged. *)
Variable brentq : (R -> R) -> R -> R -> option R.

Definition solve_recurrence (terms : list (R * R)) : R :=
  match terms with
  | [] => 1
  | _ =>
      let coefs := map fst terms in
      let deltas := map snd terms in
      if existsb nonpositive deltas then PENALTY
      else
        let g := g_rec coefs deltas in
        let g1 := g 1 in
        if Rlt_dec (Rabs g1) eps12 then 1
        else if Rlt_dec g1 0 then PENALTY
        else
          match upper_bracket g 50 2 with
          | None => PENALTY
          | Some b =>
              match brentq g 1 b with
              | Some root => snap_int root
              | None => PENALTY
              end
          end
  end.

End ExactSolver.



End Exact.

(** ** Sample inputs

    The recurrences the properties below are run on. *)

(** The left-hand side [T(n)]. *)
Definition T_n : FunctionTerm :=
  mkFunctionTerm f1 (lit "T") [lit "n"] [f0].

(** The term [c * T(n + s)]. *)
Definition T_term (c s : float) : Term :=
  FunctionTerm_ (mkFunctionTerm c (lit "T") [lit "n"] [s]).

Definition f0_5 : float := Eval vm_compute in dec 5 (-1).       (* 0.5 *)
Definition fm1 : float := Eval vm_compute in dec (-1) 0.        (* -1.0 *)
Definition fm2 : float := Eval vm_compute in dec (-2) 0.        (* -2.0 *)

(** [T(n) = 0.5*T(n-1)] *)
Definition half_rec : Recurrence := mkRecurrence T_n [T_term f0_5 fm1].

(** [T(n) = T(n-1)] *)
Definition unit_rec : Recurrence := mkRecurrence T_n [T_term f1 fm1].

(** [T(n) = T(n-1) + T(n-2)] *)
Definition fib_rec : Recurrence :=
  mkRecurrence T_n [T_term f1 fm1; T_term f1 fm2].

(** [T(n) = 2*T(n-1) - T(n-2)], as the parser returns it for
    [T(n) = 2*T(n-1) + -1*T(n-2)]. *)
Definition minus_rec : Recurrence :=
  mkRecurrence T_n [T_term f2 fm1; T_term fm1 fm2].

Definition f0_9999999999995 : float :=
  Eval vm_compute in dec 9999999999995 (-13).                   (* 0.9999999999995 *)

(** [T(n) = 0.9999999999995*T(n-1)]: the coefficient sum is below [1] by
    about [5e-13]. *)
Definition just_below_rec : Recurrence :=
  mkRecurrence T_n [T_term f0_9999999999995 fm1].

(** ** Keys of a dictionary

    Pairwise different under [==], an earlier key against a later one. *)
Fixpoint distinct (ks : list key) : Prop :=
  match ks with
  | [] => True
  | k :: rest => (forall k', In k' rest -> key_eqb k k' = false) /\ distinct rest
  end.

(** [1*T(n-1) + 3 + 2*T(n-1) + 1*T(n-2)], the summands as parsed. *)
Definition f3 : float := Eval vm_compute in dec 3 0.
Definition mixed_terms : list Term :=
  [T_term f1 fm1; ConstantTerm f3; T_term f2 fm1; T_term f1 fm2].

(** A function term over the function [func] and the variables
    [vars_list]. *)
Definition same_signature (fn : str) (vars_list : list str) (t : Term) : Prop :=
  match t with
  | FunctionTerm_ f => func f = fn /\ vars f = vars_list
  | ConstantTerm _ => True
  end.

(** [T(n) = 3 + 3*T(n-1) + T(n-2)], as the parser returns it for
    [T(n) = T(n-1) + 3 + 2*T(n-1) + T(n-2)]. *)
Definition mixed_rec : Recurrence :=
  mkRecurrence T_n [ConstantTerm f3; T_term f3 fm1; T_term f1 fm2].

Definition is_parse_error (e : exn) : Prop :=
  match e with ParseError _ => True | _ => False end.

Definition f1_618034 : float := Eval vm_compute in dec 1618034 (-6).   (* 1.618034 *)

(** [T(m, n) = T(m-1, n) + T(m, n-1)] *)
Definition grid_rec : Recurrence :=
  mkRecurrence
    (mkFunctionTerm f1 (lit "T") [lit "m"; lit "n"] [f0; f0])
    [FunctionTerm_ (mkFunctionTerm f1 (lit "T") [lit "m"; lit "n"] [fm1; f0]);
     FunctionTerm_ (mkFunctionTerm f1 (lit "T") [lit "m"; lit "n"] [f0; fm1])].

(** The function term over [fn] and [vs] with shift vector [k] and the
    coefficient [value k]. *)
Definition keyed_term (fn : str) (vs : list str) (value : key -> float)
  (k : key) : Term :=
  FunctionTerm_ (mkFunctionTerm (value k) fn vs k).

(** The root the reference bisection finds for the Fibonacci recurrence. *)
Definition fib_root : float :=
  Eval vm_compute in
    match Reference.brentq (@g_rec Reference.numerics [f1; f1] [f1; f2]) f1 f2 with
    | Some (_, r) => r
    | None => S754_nan
    end.

(** [x] directly followed by [y] somewhere in [s]. *)
Definition adjacent (x y : N) (s : str) : Prop :=
  exists a b, s = a ++ x :: y :: b.

(** ** optimize.py

    The objective of the weight optimizer: the closures [_rule_value],
    [f_i], [f_x] and [f] of [main], with the module's own copy [root] of
    the root finder.  The global [num_root_calls] and the dictionary
    [root_cache] that the closures share are threaded through every call;
    an exception leaves them as they were when it was raised. *)

Module Optimize.

Record RuleRecord : Type := mkRuleRecord {
  situation_id : Z;
  signature : str;
  rule_id : Z;
  branch_delta_matrix : list (list float)
}.

(** [SituationRecord]; its first two fields carry the names of those of
    [RuleRecord]. *)
Record SituationRecord : Type := mkSituationRecord {
  situation_id' : Z;
  signature' : str;
  rules : list RuleRecord
}.

(** The array operations of NumPy the objective uses: [matrix @ x],
    [np.clip(x, lo, hi)] and [np.cumprod(p)]. *)
Class NumPyArrays : Type := {
  np_matmul : list (list float) -> list float -> list float;
  np_clip_array : list float -> float -> float -> list float;
  np_cumprod : list float -> list float
}.

(** [root_cache]: a dictionary from [(situation_id, rule_id)] to the last
    root. *)
Definition cache : Type := list (Z * Z * float).

Definition cache_key_eqb (a b : Z * Z) : bool :=
  (fst a =? fst b)%Z && (snd a =? snd b)%Z.

Fixpoint cache_get (k : Z * Z) (c : cache) : option float :=
  match c with
  | [] => None
  | (k', v) :: c' => if cache_key_eqb k' k then Some v else cache_get k c'
  end.

Fixpoint cache_set (k : Z * Z) (v : float) (c : cache) : cache :=
  match c with
  | [] => [(k, v)]
  | (k', v') :: c' =>
      if cache_key_eqb k' k then (k', v) :: c' else (k', v') :: cache_set k v c'
  end.

Record globals : Type := mkGlobals {
  num_root_calls : Z;
  root_cache : cache
}.

(** A computation that reads and updates the globals and returns or
    raises. *)
Definition M (A : Type) : Type := globals -> result A * globals.

Definition ret {A : Type} (a : A) : M A := fun st => (Ok a, st).

Definition raise {A : Type} (e : exn) : M A := fun st => (Raise e, st).

Definition bindM {A B : Type} (m : M A) (k : A -> M B) : M B :=
  fun st =>
    match m st with
    | (Ok a, st') => k a st'
    | (Raise e, st') => (Raise e, st')
    end.

Notation "x <-- m ;; k" := (bindM m (fun x => k))
  (at level 61, m at next level, right associativity).

Section Objective.
Context {NP : Numerics} {SP : SciPy} {NA : NumPyArrays}.

Definition eval_poly_and_derivative (x : float) (d : list float)
  : float * float :=
  if (x <=? f0)%b64 then (inf, inf)
  else
    let d_arr := d in
    let lx := np_log x in
    let exp_terms := map (fun d => np_exp (- d * lx)%b64) d_arr in
    let s := np_sum exp_terms in
    let w := np_sum (map2 fmul d_arr exp_terms) in
    let g := (s - f1)%b64 in
    let gp := (- w / x)%b64 in
    if negb (isfinite g) || negb (isfinite gp) then (inf, inf)
    else (g, gp).

(** The [for _ in range(40)] loop of [root]. *)
Fixpoint expand (g : float -> float) (n : nat) (bb : float) : option float :=
  match n with
  | O => None
  | S n' =>
      let bb := py_min (bb * f2)%b64 cap12 in
      if bracket_ok (g bb) then Some bb else expand g n' bb
  end.

(** What [root] returns or raises, after the count of the call. *)
Definition root_value (deltas : list float) (x0 : option float) : result float :=
  let d := deltas in
  match d with
  | [] => Ok inf
  | [_] => Ok f1
  | _ =>
      let m := Z.of_nat (List.length d) in
      let min_delta := np_min d in
      if (min_delta <=? f0)%b64 then Ok PENALTY
      else
        let g := fun x => fst (eval_poly_and_derivative x d) in
        let log_m := math_log (of_int m) in
        let b_cap := cap12 in
        let exponent := (log_m / min_delta)%b64 in
        let log_cap := math_log (b_cap / f1_01)%b64 in
        let b :=
          if negb (isfinite exponent) || (log_cap <=? exponent)%b64 then b_cap
          else py_max f2 (math_exp exponent * f1_01)%b64 in
        match (if bracket_ok (g b) then Some b else expand g 40 b) with
        | None => Ok PENALTY
        | Some b =>
            let newton :=
              match x0 with
              | Some x0 =>
                  if isfinite x0 then
                    let x0c := np_clip x0 f1 b in
                    match root_scalar_newton g
                            (fun x => snd (eval_poly_and_derivative x d)) x0c 20 with
                    | Some (converged, r) =>
                        if converged && (f1 <=? r)%b64
                           && (r <=? b * f1_000001)%b64
                        then Some r else None
                    | None => None
                    end
                  else None
              | None => None
              end in
            match newton with
            | Some r => Ok r
            | None =>
                match root_scalar_brentq g f1 b with
                | None => Raise ValueError
                | Some (converged, r) =>
                    if converged then Ok r else Ok PENALTY
                end
            end
        end
  end.

Definition root (deltas : list float) (x0 : option float) : M float :=
  fun st =>
    (root_value deltas x0,
     mkGlobals (num_root_calls st + 1) (root_cache st)).

(** The list of situations that [main] built. *)
Variable situations : list SituationRecord.

Definition _params_to_x (p : list float) : list float :=
  np_cumprod (np_clip_array p f0 f1).

Definition _rule_value (x : list float) (rule : RuleRecord) : M float :=
  let deltas := np_matmul (branch_delta_matrix rule) x in
  let cache_key := (situation_id rule, rule_id rule) in
  fun st =>
    match root deltas (cache_get cache_key (root_cache st)) st with
    | (Raise e, st') => (Raise e, st')
    | (Ok val, st') =>
        if negb (isfinite val) then (Ok PENALTY, st')
        else
          let val_f := val in
          if (val_f <? PENALTY)%b64
          then (Ok val_f,
                mkGlobals (num_root_calls st')
                          (cache_set cache_key val_f (root_cache st')))
          else (Ok val_f, st')
    end.

(** [min(_rule_value(x, r) for r in rest)] once the first value is
    [best]: a later value replaces it when it is strictly smaller. *)
Fixpoint min_rule_values (x : list float) (rest : list RuleRecord) (best : float)
  : M float :=
  match rest with
  | [] => ret best
  | r :: rest' =>
      v <-- _rule_value x r ;;
      min_rule_values x rest' (if (v <? best)%b64 then v else best)
  end.

Definition f_i (x : list float) (i : nat) : M float :=
  match nth_error situations i with
  | None => raise IndexError
  | Some sit =>
      match rules sit with
      | [] => ret PENALTY
      | r :: rest => v <-- _rule_value x r ;; min_rule_values x rest v
      end
  end.

(** The loop [for i in range(len(situations))] of [f_x], from [i] on. *)
Fixpoint f_x_loop (x : list float) (indices : list nat) (worst : float)
  : M float :=
  match indices with
  | [] => ret worst
  | i :: indices' =>
      v <-- f_i x i ;;
      if (worst <? v)%b64 then
        let worst := v in
        if (PENALTY <=? worst)%b64 then ret PENALTY
        else f_x_loop x indices' worst
      else f_x_loop x indices' worst
  end.

Definition f_x (x : list float) : M float :=
  let x := np_clip_array x f0 f1 in
  f_x_loop x (seq 0 (List.length situations)) f1.

Definition f (p : list float) : M float := f_x (_params_to_x p).

End Objective.

(** Every cached root is finite and below the sentinel. *)
Definition cache_ok (c : cache) : Prop :=
  Forall (fun kv => isfinite (snd kv) = true /\ (snd kv <? PENALTY)%b64 = true) c.

(** Array operations to run the objective with: a dot product per row,
    added from the left, and the element-wise and running versions of the
    scalar operations. *)
Definition reference_arrays : NumPyArrays := {|
  np_matmul := fun rows x => map (fun row => Reference.sum (map2 fmul row x)) rows;
  np_clip_array := fun x lo hi =>
    map (fun v => if isnan v then v else np_clip v lo hi) x;
  np_cumprod := fun p =>
    match p with
    | [] => []
    | p0 :: rest =>
        rev (fst (fold_left (fun acc v =>
                               let y := (snd acc * v)%b64 in (y :: fst acc, y))
                            rest ([p0], p0)))
    end
|}.

(** One situation with one rule of two branches, of deltas [w] and
    [2 w] for the weight [w]. *)
Definition two_branches : list SituationRecord :=
  [mkSituationRecord 0 (lit "s")
     [mkRuleRecord 0 (lit "s") 0 [[f1]; [f2]]]].

Definition no_calls : globals := mkGlobals 0 [].

(** The objective at the weight [1], run with the reference instances. *)
Definition objective_at_one : result float * globals :=
  Eval vm_compute in
    @f Reference.numerics Reference.scipy reference_arrays two_branches [f1]
       no_calls.

End Optimize.

(* ================================================================== *)
(** * Part II. Properties                                              *)
(* ================================================================== *)

(** ** Comparison of doubles *)

Lemma SFcompare_antisym (a b : float) :
  SFcompare b a = option_map CompOpp (SFcompare a b).
Proof.
  destruct a as [sa|sa| |sa ma ea], b as [sb|sb| |sb mb eb]; simpl;
    try reflexivity; try (destruct sa; reflexivity);
    try (destruct sb; reflexivity); try (destruct sa, sb; reflexivity).
  change (Pos.compare_cont Eq mb ma) with (Pos.compare mb ma).
  change (Pos.compare_cont Eq ma mb) with (Pos.compare ma mb).
  rewrite (Z.compare_antisym ea eb), (Pos.compare_antisym ma mb).
  destruct sa, sb; try reflexivity;
    destruct (ea ?= eb)%Z; simpl; try reflexivity;
    destruct (ma ?= mb)%positive; reflexivity.
Qed.

Lemma feqb_true (a b : float) :
  (a == b)%b64 = true ->
  a = b \/ (exists s t, a = S754_zero s /\ b = S754_zero t).
Proof.
  unfold feqb, SFeqb, SFcompare.
  destruct a as [sa|sa| |sa ma ea], b as [sb|sb| |sb mb eb]; try discriminate;
    try (destruct sa; discriminate); try (destruct sb; discriminate).
  - intros _. right. eauto.
  - destruct sa, sb; try discriminate; intros _; now left.
  - destruct sa, sb; try discriminate;
      destruct (Z.compare_spec ea eb); try discriminate; subst;
      change (Pos.compare_cont Eq ma mb) with (Pos.compare ma mb);
      destruct (Pos.compare_spec ma mb); try discriminate; subst; now left.
Qed.

Lemma feqb_refl (a : float) : isnan a = false -> (a == a)%b64 = true.
Proof.
  unfold feqb, SFeqb, SFcompare.
  destruct a as [s|s| |s m e]; try discriminate; intros _;
    try (now destruct s).
  destruct s; rewrite Z.compare_refl;
    change (Pos.compare_cont Eq m m) with (Pos.compare m m);
    now rewrite Pos.compare_refl.
Qed.

Lemma feqb_zero (s t : bool) : (S754_zero s == S754_zero t)%b64 = true.
Proof. reflexivity. Qed.

Lemma feqb_not_nan (a b : float) :
  (a == b)%b64 = true -> isnan a = false /\ isnan b = false.
Proof.
  unfold feqb, SFeqb, SFcompare.
  destruct a, b; try discriminate; auto.
Qed.

(** Two doubles equal to a third are equal to each other. *)
Lemma feqb_euclid (a b c : float) :
  (a == c)%b64 = true -> (b == c)%b64 = true -> (a == b)%b64 = true.
Proof.
  intros Hac Hbc.
  destruct (feqb_not_nan _ _ Hac) as [Ha _].
  destruct (feqb_true _ _ Hac) as [-> | (s & t & -> & ->)];
    destruct (feqb_true _ _ Hbc) as [-> | (s' & t' & -> & E)];
    try assumption; try inversion E; try apply feqb_zero; try assumption.
Qed.

Lemma feqb_sym (a b : float) : (b == a)%b64 = (a == b)%b64.
Proof.
  unfold feqb, SFeqb. rewrite (SFcompare_antisym a b).
  destruct (SFcompare a b) as [[]|]; reflexivity.
Qed.

(** ** The reference numerics satisfy the laws *)

#[export] Instance reference_laws : NumericsLaws Reference.numerics.
Proof.
  split.
  - vm_compute. reflexivity.
  - intros s. reflexivity.
  - intros x _. reflexivity.
  - intros x y _. reflexivity.
Qed.

(** ** types.py: the constructors *)

(** C8.  [FunctionTerm(...)] raises [ValueError] exactly when [vars] and
    [shifts] differ in length, and [Recurrence(...)] exactly when [lhs.coef]
    is not [1] or some shift of [lhs] is not [0]; so a constructed
    [FunctionTerm] has as many shifts as variables and a constructed
    [Recurrence] has [lhs.coef == 1] and every shift of [lhs] [== 0],
    whoever builds it. *)
Theorem constructor_invariants :
  (forall c f vs ss,
      FunctionTerm_init c f vs ss = Raise ValueError <->
      List.length vs <> List.length ss) /\
  (forall c f vs ss t,
      FunctionTerm_init c f vs ss = Ok t ->
      t = mkFunctionTerm c f vs ss /\
      List.length (vars t) = List.length (shifts t)) /\
  (forall l r,
      Recurrence_init l r = Raise ValueError <->
      (coef l == f1)%b64 = false \/
      exists s, In s (shifts l) /\ (s == f0)%b64 = false) /\
  (forall l r rec,
      Recurrence_init l r = Ok rec ->
      rec = mkRecurrence l r /\
      (coef (lhs rec) == f1)%b64 = true /\
      forall s, In s (shifts (lhs rec)) -> (s == f0)%b64 = true).
Proof.
  repeat split.
  - unfold FunctionTerm_init.
    destruct (Nat.eqb_spec (List.length vs) (List.length ss)); simpl; congruence.
  - unfold FunctionTerm_init.
    destruct (Nat.eqb_spec (List.length vs) (List.length ss)); simpl; congruence.
  - unfold FunctionTerm_init in H.
    destruct (Nat.eqb (List.length vs) (List.length ss)); simpl in H; congruence.
  - unfold FunctionTerm_init in H.
    destruct (Nat.eqb_spec (List.length vs) (List.length ss)); simpl in H;
      [ injection H as <-; assumption | discriminate ].
  - unfold Recurrence_init.
    destruct (coef l == f1)%b64; simpl; [ | now left ].
    destruct (existsb _ (shifts l)) eqn:E; [ | discriminate ].
    intros _. right. apply existsb_exists in E as (s & Hs & Hz).
    exists s. split; [ assumption | ].
    now destruct (s == f0)%b64.
  - unfold Recurrence_init.
    intros [Hc | (s & Hs & Hz)].
    + now rewrite Hc.
    + destruct (coef l == f1)%b64; simpl; [ | reflexivity ].
      replace (existsb _ (shifts l)) with true; [ reflexivity | ].
      symmetry. apply existsb_exists. exists s. now rewrite Hz.
  - unfold Recurrence_init in H.
    destruct (coef l == f1)%b64; simpl in H; [ | discriminate ].
    destruct (existsb _ (shifts l)); congruence.
  - unfold Recurrence_init in H.
    destruct (coef l == f1)%b64 eqn:E; simpl in H; [ | discriminate ].
    destruct (existsb _ (shifts l)); [ discriminate | ].
    injection H as <-. exact E.
  - unfold Recurrence_init in H.
    destruct (coef l == f1)%b64; simpl in H; [ | discriminate ].
    destruct (existsb _ (shifts l)) eqn:E; [ discriminate | ].
    injection H as <-. simpl. intros s Hs.
    destruct (s == f0)%b64 eqn:Hz; [ reflexivity | ].
    assert (X : existsb (fun s => negb (s == f0)%b64) (shifts l) = true)
      by (apply existsb_exists; exists s; now rewrite Hz).
    congruence.
Qed.

(** ** formatter.py: the sentinel as a root *)

Lemma format_number_PENALTY : format_number PENALTY 5 = Ok (lit "1000000").
Proof. vm_compute. reflexivity. Qed.

(** C10.  For a recurrence in one variable [var], [format_asymptotics] with
    the infeasible sentinel [1e6] as the root returns [O(1000000^var)], the
    shape of any finite root: for [var = n] the string [O(1000000^n)]. *)
Theorem format_asymptotics_penalty (rec : Recurrence) (var : str) :
  vars (lhs rec) = [var] ->
  format_asymptotics rec PENALTY = Ok (lit "O(1000000^" ++ var ++ lit ")").
Proof.
  intros H. unfold format_asymptotics. rewrite H.
  change (isinf PENALTY) with false.
  change (PENALTY == f1)%b64 with false.
  cbv iota. rewrite format_number_PENALTY. reflexivity.
Qed.

Lemma format_asymptotics_penalty_witness :
  format_asymptotics half_rec PENALTY = Ok (lit "O(1000000^n)").
Proof.
  exact (format_asymptotics_penalty half_rec (var := lit "n") eq_refl).
Defined.

(** ** solver.py: the value of [g] at [1] *)

Lemma fmul_neg_zero (d : float) :
  isfinite d = true -> exists s, (- d * f0)%b64 = S754_zero s.
Proof.
  destruct d as [s|s| |s m e]; try discriminate; intros _; simpl; eauto.
Qed.

Section SolverFacts.
Context {NP : Numerics} {SP : SciPy} {L : NumericsLaws NP}.

(** [g(1) = sum(coefs) - 1]: every [exp(-delta * log(1))] is [1]. *)
Lemma g_rec_at_one (coefs deltas : list float) :
  forallb isfinite deltas = true ->
  List.length coefs = List.length deltas ->
  g_rec coefs deltas f1 = (np_sum (map (fun c => c * f1)%b64 coefs) - f1)%b64.
Proof.
  intros Hfin Hlen. unfold g_rec.
  change (f1 <=? f0)%b64 with false. cbv iota.
  rewrite np_log_one. f_equal. f_equal.
  revert deltas Hfin Hlen.
  induction coefs as [|c coefs IH]; intros [|d deltas] Hfin Hlen;
    try discriminate; [ reflexivity | ].
  simpl in Hfin. apply andb_prop in Hfin as [Hd Hfin].
  simpl. destruct (fmul_neg_zero d Hd) as [s ->].
  rewrite np_exp_zero. f_equal. apply IH; [ assumption | ].
  simpl in Hlen. congruence.
Qed.

End SolverFacts.

(** ** solver.py: the sentinels *)

Lemma parse_half (U : Unicode) :
  parse_recurrence (lit "T(n) = 0.5*T(n-1)") = Ok half_rec.
Proof. vm_compute. reflexivity. Qed.

Lemma solve_half (NP : Numerics) (SP : SciPy) (L : NumericsLaws NP) :
  solve_recurrence half_rec = Ok PENALTY.
Proof.
  unfold solve_recurrence, half_rec, T_term. 
  cbn [vars lhs rhs T_n List.length Nat.eqb negb function_terms flat_map app
       map coef mapM delta_of shifts bind].
  change (existsb _ [(- fm1)%b64]) with false. cbv iota.
  rewrite g_rec_at_one by reflexivity.
  cbn [map]. rewrite np_sum_single by reflexivity.
  vm_compute. reflexivity.
Qed.

(** C3.  [find_root([])] is IEEE positive infinity; for two or more deltas
    with [np.min(deltas) <= 0] ([[0, 1]] and [[-1, 1]] among them)
    [find_root] returns the finite sentinel [1e6], which is not an infinity;
    and [solve_recurrence] on the parse of [T(n) = 0.5*T(n-1)] returns the
    same sentinel. *)
Theorem sentinel_outcomes (U : Unicode) (NP : Numerics) (SP : SciPy) :
  NumericsLaws NP ->
  (forall x0, find_root [] x0 = Ok (S754_infinity false)) /\
  (forall deltas x0,
      2 <= List.length deltas ->
      (np_min deltas <=? f0)%b64 = true ->
      find_root deltas x0 = Ok PENALTY) /\
  (forall x0, find_root [f0; f1] x0 = Ok PENALTY) /\
  (forall x0, find_root [fm1; f1] x0 = Ok PENALTY) /\
  PENALTY = dec 1 6 /\
  isfinite PENALTY = true /\
  isinf PENALTY = false /\
  (PENALTY == S754_infinity false)%b64 = false /\
  (exists rec,
      parse_recurrence (lit "T(n) = 0.5*T(n-1)") = Ok rec /\
      solve_recurrence rec = Ok PENALTY).
Proof.
  intros L.
  assert (general : forall deltas x0,
             2 <= List.length deltas ->
             (np_min deltas <=? f0)%b64 = true ->
             find_root deltas x0 = Ok PENALTY).
  { intros deltas x0 Hlen Hmin. unfold find_root.
    destruct deltas as [|d1 [|d2 rest]]; simpl in Hlen; try lia.
    now rewrite Hmin. }
  repeat split; try reflexivity.
  - exact general.
  - exists half_rec. split; [ apply parse_half | now apply solve_half ].
Qed.

Lemma sentinel_outcomes_witness :
  ref_find_root [] None = Ok (S754_infinity false) /\
  ref_find_root [f0; f1] None = Ok PENALTY /\
  ref_find_root [fm1; f1] (Some f2) = Ok PENALTY /\
  ref_solve half_rec = Ok PENALTY.
Proof.
  unfold ref_find_root, ref_solve.
  destruct (sentinel_outcomes Reference.basic_latin Reference.scipy reference_laws)
    as (E & G & _ & _ & _ & _ & _ & _ & rec & P & S).
  rewrite parse_half in P. injection P as <-.
  split; [ apply E | ].
  split; [ apply G; [ simpl; lia | reflexivity ] | ].
  split; [ apply G; [ simpl; lia | reflexivity ] | exact S ].
Defined.

(** ** solver.py: the checks at [x = 1] *)

Lemma fltb_not_fleb (a b : float) : (a <? b)%b64 = true -> (b <=? a)%b64 = false.
Proof.
  unfold fltb, fleb, SFltb, SFleb. rewrite (SFcompare_antisym a b).
  destruct (SFcompare a b) as [[]|]; simpl; congruence.
Qed.

Lemma pos_compare_cont_eq (p q : positive) :
  PosDef.Pos.compare_cont Eq p q = Pos.compare p q.
Proof. reflexivity. Qed.

(** [abs(x) < c] is [-c < x < c], for a positive finite [c]. *)
Lemma fabs_below (x : float) (M : positive) (E : Z) :
  let c := S754_finite false M E in
  (fabs x <? c)%b64 = ((- c <? x)%b64 && (x <? c)%b64).
Proof.
  intros c. subst c.
  destruct x as [s|s| |s m e].
  - destruct s; reflexivity.
  - destruct s; reflexivity.
  - reflexivity.
  - unfold fabs, fltb, fneg, SFltb, SFabs, SFopp, SFcompare.
    rewrite (pos_compare_cont_eq m M), ?(pos_compare_cont_eq M m).
    destruct s; cbn [negb].
    + rewrite andb_true_r.
      rewrite (Z.compare_antisym e E), (Pos.compare_antisym m M).
      destruct (e ?= E)%Z; cbn [CompOpp]; try reflexivity.
      destruct (m ?= M)%positive; reflexivity.
    + rewrite andb_true_l. reflexivity.
Qed.

(** [abs(x) < 1e-12] is [-1e-12 < x < 1e-12]. *)
Lemma fabs_below_eps (x : float) :
  (fabs x <? eps12)%b64 = ((- eps12 <? x)%b64 && (x <? eps12)%b64).
Proof. exact (fabs_below x 4951760157141521 (-92)). Qed.

(** At or below [-1e-12] is neither within [1e-12] of zero nor
    non-negative. *)
Lemma at_most_minus_eps (x : float) :
  (x <=? - eps12)%b64 = true ->
  (fabs x <? eps12)%b64 = false /\ (x <? f0)%b64 = true.
Proof.
  rewrite fabs_below_eps. intros H. split.
  - apply andb_false_iff. left.
    unfold fltb, fleb, SFltb, SFleb in *.
    rewrite (SFcompare_antisym x (- eps12)%b64).
    destruct (SFcompare x (- eps12)%b64) as [[]|]; simpl; congruence.
  - destruct x as [s|s| |s m e]; try discriminate; destruct s; try discriminate;
      reflexivity.
Qed.

Section Boundary.
Context {NP : Numerics} {SP : SciPy}.

(** X5.  For a recurrence in one variable with at least one function term
    and every delta positive, with [g(1)] the value the solver computes at
    [1.0]: if [-1e-12 < g(1) < 1e-12], on either side of zero,
    [solve_recurrence] returns exactly [1.0]; if [g(1) <= -1e-12] it returns
    the infeasible sentinel. *)
Theorem boundary_at_one (rec : Recurrence) (deltas : list float) :
  List.length (vars (lhs rec)) = 1 ->
  function_terms (rhs rec) <> [] ->
  mapM delta_of (function_terms (rhs rec)) = Ok deltas ->
  forallb (fun d => f0 <? d)%b64 deltas = true ->
  let g1 := g_rec (map coef (function_terms (rhs rec))) deltas f1 in
  ((- eps12 <? g1)%b64 && (g1 <? eps12)%b64 = true ->
   solve_recurrence rec = Ok f1) /\
  ((g1 <=? - eps12)%b64 = true -> solve_recurrence rec = Ok PENALTY).
Proof.
  intros Hvar Hne Hd Hpos g1.
  assert (Hnp : existsb (fun d => d <=? f0)%b64 deltas = false).
  { clear Hd. induction deltas as [|d ds IH]; [ reflexivity | ].
    simpl in *. apply andb_prop in Hpos as [Hd Hds].
    now rewrite (fltb_not_fleb _ _ Hd), IH. }
  assert (E : solve_recurrence rec =
              if (fabs g1 <? eps12)%b64 then Ok f1
              else if (g1 <? f0)%b64 then Ok PENALTY
              else match upper_bracket (g_rec (map coef (function_terms (rhs rec))) deltas) 50 f2 with
                   | None => Ok PENALTY
                   | Some b =>
                       match root_scalar_brentq
                               (g_rec (map coef (function_terms (rhs rec))) deltas) f1 b with
                       | Some (true, root) =>
                           match snap_int root 6 with
                           | Ok r => Ok r
                           | Raise _ => Ok PENALTY
                           end
                       | _ => Ok PENALTY
                       end
                   end).
  { unfold solve_recurrence. rewrite Hvar. cbn [Nat.eqb negb]. cbv iota.
    destruct (function_terms (rhs rec)) as [|t ts] eqn:Eft; [ congruence | ].
    rewrite Hd. cbv beta iota delta [bind]. rewrite Hnp. reflexivity. }
  rewrite E. split.
  - intros H. now rewrite fabs_below_eps, H.
  - intros H. destruct (at_most_minus_eps _ H) as [-> ->]. reflexivity.
Qed.

End Boundary.

Lemma boundary_at_one_witness :
  ref_solve just_below_rec = Ok f1 /\ ref_solve half_rec = Ok PENALTY.
Proof.
  split.
  - refine (proj1 (@boundary_at_one Reference.numerics Reference.scipy
                     just_below_rec [f1] eq_refl _ eq_refl eq_refl) _).
    + discriminate.
    + vm_compute. reflexivity.
  - refine (proj2 (@boundary_at_one Reference.numerics Reference.scipy
                     half_rec [f1] eq_refl _ eq_refl eq_refl) _).
    + discriminate.
    + vm_compute. reflexivity.
Defined.

(** Just below zero: the recurrence [T(n) = 0.9999999999995*T(n-1)] has
    [g(1)] strictly between [-1e-12] and [0], and its root is [1.0], not the
    sentinel. *)
Lemma near_one_from_below_is_constant :
  ref_parse (lit "T(n) = 0.9999999999995*T(n-1)") = Ok just_below_rec /\
  (let g1 := @g_rec Reference.numerics [f0_9999999999995] [f1] f1 in
   (- eps12 <? g1)%b64 = true /\ (g1 <? f0)%b64 = true) /\
  ref_solve just_below_rec = Ok f1 /\
  ref_solve just_below_rec <> Ok PENALTY.
Proof.
  repeat split; try (vm_compute; reflexivity).
  vm_compute. discriminate.
Qed.

(** ** parser.py: [_combine_terms] against the normal form *)

Lemma key_eqb_refl (k : key) : valid_key k = true -> key_eqb k k = true.
Proof.
  induction k as [|x k IH]; [ reflexivity | ].
  cbn [valid_key forallb key_eqb]. intros H.
  apply andb_prop in H as [Hx Hk].
  rewrite feqb_refl by now destruct (isnan x).
  now rewrite IH.
Qed.

Lemma key_eqb_euclid (a b c : key) :
  key_eqb a c = true -> key_eqb b c = true -> key_eqb a b = true.
Proof.
  revert b c. induction a as [|x a IH]; intros [|y b] [|z c];
    cbn [key_eqb]; try discriminate; [ reflexivity | ].
  intros H1 H2.
  apply andb_prop in H1 as [Hxz Hac]. apply andb_prop in H2 as [Hyz Hbc].
  rewrite (feqb_euclid _ _ _ Hxz Hyz). now rewrite (IH _ _ Hac Hbc).
Qed.

Lemma distinct_snoc (ks : list key) (k : key) :
  distinct ks ->
  existsb (fun k' => key_eqb k' k) ks = false ->
  distinct (ks ++ [k]).
Proof.
  induction ks as [|k1 ks IH]; cbn [distinct existsb app].
  - intros _ _. split; [ intros k' [] | exact I ].
  - intros [H1 H2] E. apply orb_false_iff in E as [E1 E2]. split.
    + intros k' Hin. apply in_app_or in Hin as [Hin | [<- | []]]; auto.
    + now apply IH.
Qed.

(** Assigning to a key the dictionary does not hold appends it. *)
Lemma dict_set_new (m : dict) (k : key) (v : float) :
  existsb (fun k' => key_eqb k' k) (map fst m) = false ->
  dict_get m k f0 = f0 /\ dict_set m k v = m ++ [(k, v)].
Proof.
  induction m as [|[k1 v1] m IH]; cbn [map fst existsb dict_get dict_set app].
  - intros _. split; reflexivity.
  - intros E. apply orb_false_iff in E as [E1 E2]. rewrite E1.
    destruct (IH E2) as [-> ->]. split; reflexivity.
Qed.

(** Adding [c] to the value of a key the dictionary holds changes the
    entry of that key and nothing else. *)
Lemma dict_set_old (m : dict) (k : key) (c : float) :
  distinct (map fst m) ->
  existsb (fun k' => key_eqb k' k) (map fst m) = true ->
  dict_set m k (dict_get m k f0 + c)%b64 =
  map (fun e => (fst e, if key_eqb (fst e) k then (snd e + c)%b64 else snd e)) m.
Proof.
  induction m as [|[k1 v1] m IH];
    cbn [map fst snd existsb dict_get dict_set distinct]; [ discriminate | ].
  intros [H1 H2] E. destruct (key_eqb k1 k) eqn:E1.
  - f_equal. clear IH E H2.
    induction m as [|[k2 v2] m IHm]; [ reflexivity | ].
    cbn [map fst snd] in *.
    assert (E2 : key_eqb k2 k = false).
    { destruct (key_eqb k2 k) eqn:E2; [ | reflexivity ].
      rewrite <- (H1 k2 (or_introl eq_refl)).
      symmetry. exact (key_eqb_euclid _ _ _ E1 E2). }
    rewrite E2. f_equal. apply IHm. intros k' Hin. apply H1. now right.
  - cbn [orb] in E. f_equal. now apply IH.
Qed.

Lemma key_eqb_sym (a b : key) : key_eqb b a = key_eqb a b.
Proof.
  revert b. induction a as [|x a IH]; intros [|y b]; cbn [key_eqb];
    try reflexivity.
  now rewrite feqb_sym, IH.
Qed.

Lemma group_fold_cons (k : key) (t : Term) (rest : list Term) (v : float) :
  group_fold k (t :: rest) v =
  group_fold k rest
    match t with
    | FunctionTerm_ f => if key_eqb k (shifts f) then (v + coef f)%b64 else v
    | ConstantTerm _ => v
    end.
Proof. reflexivity. Qed.

(** A new key is different from every key seen. *)
Lemma distinct_keys_new (raw : list Term) :
  forall (seen : list key) (k s : key),
    In k (distinct_keys raw seen) -> In s seen -> key_eqb s k = false.
Proof.
  induction raw as [|t raw IH]; intros seen k s Hk Hs; [ destruct Hk | ].
  destruct t as [f | x]; cbn [distinct_keys] in Hk; [ | now apply (IH seen) ].
  destruct (existsb (fun k' => key_eqb k' (shifts f)) seen) eqn:E.
  - now apply (IH seen).
  - destruct Hk as [<- | Hk].
    + apply not_true_is_false. intros Hsk.
      assert (X : existsb (fun k' => key_eqb k' (shifts f)) seen = true)
        by (apply existsb_exists; eauto).
      congruence.
    + apply (IH (seen ++ [shifts f])); [ exact Hk | ].
      apply in_or_app. now left.
Qed.

(** The first loop of [_combine_terms], started on any dictionary with
    distinct keys: the entries it had, each with the coefficients of its
    group added, then the new keys in the order of first occurrence. *)
Lemma combine_loop_spec (vars_list : list str) (raw : list Term) :
  Forall (well_shifted vars_list) raw ->
  forall (c : float) (m : dict),
    distinct (map fst m) ->
    combine_loop raw c m =
    (fold_left (fun acc t => match t with
                             | ConstantTerm x => (acc + x)%b64
                             | FunctionTerm_ _ => acc
                             end) raw c,
     map (fun e => (fst e, group_fold (fst e) raw (snd e))) m ++
     map (fun k => (k, group_total k raw)) (distinct_keys raw (map fst m))).
Proof.
  induction 1 as [|t raw Ht Hraw IH]; intros c m Hm.
  - cbn [combine_loop fold_left distinct_keys map]. rewrite app_nil_r.
    f_equal. induction m as [|[k v] m IHm]; [ reflexivity | ].
    cbn [map fst snd distinct] in *. f_equal. now apply IHm.
  - destruct t as [f | x]; cbn [combine_loop fold_left distinct_keys].
    + destruct Ht as [_ Hvalid].
      destruct (existsb (fun k => key_eqb k (shifts f)) (map fst m)) eqn:E.
      * rewrite (dict_set_old m (shifts f) (coef f) Hm E).
        rewrite IH.
        2:{ rewrite map_map. cbn [fst]. exact Hm. }
        f_equal. rewrite !map_map. cbn [fst snd]. f_equal.
        apply map_ext_in. intros k Hk. f_equal.
        unfold group_total. rewrite group_fold_cons.
        replace (key_eqb k (shifts f)) with false; [ reflexivity | ].
        symmetry. apply not_true_is_false. intros Hkf.
        apply existsb_exists in E as (k0 & Hk0 & Ek0).
        pose proof (distinct_keys_new raw (map fst m) k k0 Hk Hk0) as X.
        rewrite (key_eqb_euclid _ _ _ Ek0 Hkf) in X. discriminate.
      * destruct (dict_set_new m (shifts f) (f0 + coef f)%b64 E) as [-> ->].
        rewrite IH.
        2:{ rewrite map_app. cbn [map fst]. now apply distinct_snoc. }
        f_equal. rewrite !map_app. cbn [map fst snd]. rewrite <- app_assoc.
        cbn [app]. f_equal.
        -- apply map_ext_in. intros [k v] Hin. cbn [fst snd].
           rewrite group_fold_cons.
           replace (key_eqb k (shifts f)) with false; [ reflexivity | ].
           symmetry. apply not_true_is_false. intros Hk.
           assert (X : existsb (fun k' => key_eqb k' (shifts f)) (map fst m) = true).
           { apply existsb_exists. exists k. split; [ | exact Hk ].
             change k with (fst (k, v)). now apply in_map. }
           congruence.
        -- f_equal.
           ++ f_equal. unfold group_total. rewrite group_fold_cons.
              now rewrite (key_eqb_refl _ Hvalid).
           ++ apply map_ext_in. intros k Hk. f_equal.
              unfold group_total. rewrite group_fold_cons.
              replace (key_eqb k (shifts f)) with false; [ reflexivity | ].
              symmetry. rewrite key_eqb_sym.
              apply (distinct_keys_new raw (map fst m ++ [shifts f]) k _ Hk).
              apply in_or_app. right. now left.
    + rewrite IH by exact Hm. reflexivity.
Qed.

Lemma distinct_keys_in (raw : list Term) :
  forall (seen : list key) (k : key),
    In k (distinct_keys raw seen) ->
    exists f, In (FunctionTerm_ f) raw /\ k = shifts f.
Proof.
  induction raw as [|t raw IH]; intros seen k Hk; [ destruct Hk | ].
  destruct t as [f | x]; cbn [distinct_keys] in Hk.
  - destruct (existsb (fun k' => key_eqb k' (shifts f)) seen).
    + destruct (IH _ _ Hk) as (f' & Hin & ->). exists f'. split; [ now right | reflexivity ].
    + destruct Hk as [<- | Hk].
      * exists f. split; [ now left | reflexivity ].
      * destruct (IH _ _ Hk) as (f' & Hin & ->). exists f'. split; [ now right | reflexivity ].
  - destruct (IH _ _ Hk) as (f' & Hin & ->). exists f'. split; [ now right | reflexivity ].
Qed.

(** The second loop of [_combine_terms] on entries with one shift per
    variable: no constructor call raises. *)
Lemma emit_function_terms_spec (vars_list : list str) (func : str)
  (value : key -> float) (ks : list key) :
  (forall k, In k ks -> List.length k = List.length vars_list) ->
  emit_function_terms (map (fun k => (k, value k)) ks) vars_list func =
  Ok (map (fun k => FunctionTerm_ (mkFunctionTerm (value k) func vars_list k))
          (filter (fun k => not_below_eps (value k)) ks)).
Proof.
  induction ks as [|k ks IH]; intros Hlen; [ reflexivity | ].
  cbn [map emit_function_terms filter]. unfold not_below_eps at 1.
  rewrite IH by (intros k' Hk'; apply Hlen; now right).
  destruct (fabs (value k) <? eps12)%b64; cbn [negb]; [ reflexivity | ].
  unfold FunctionTerm_init.
  rewrite (Hlen k (or_introl eq_refl)), Nat.eqb_refl. reflexivity.
Qed.

Lemma combine_terms_spec (raw : list Term) (vars_list : list str) (func : str) :
  Forall (well_shifted vars_list) raw ->
  _combine_terms raw vars_list func =
  Ok (normal_form not_below_eps raw vars_list func).
Proof.
  intros Hraw. unfold _combine_terms.
  rewrite (combine_loop_spec Hraw f0 [] I). cbn [map app].
  rewrite (emit_function_terms_spec vars_list func (fun k => group_total k raw)).
  - reflexivity.
  - intros k Hk. destruct (distinct_keys_in _ _ _ Hk) as (f & Hf & ->).
    rewrite Forall_forall in Hraw. exact (proj1 (Hraw _ Hf)).
Qed.

(** X1.  On terms with one shift per variable, none a NaN (all the parser
    builds), [_combine_terms] returns the normal form: the sum of the
    constants if its magnitude exceeds [1e-12], then one function term per
    distinct shift vector in the order of first occurrence, carrying the sum
    of its group, kept unless the magnitude of that sum is below [1e-12]. *)
Theorem combine_terms_normal_form (raw : list Term) (vars_list : list str)
  (func : str) :
  Forall (well_shifted vars_list) raw ->
  _combine_terms raw vars_list func =
  Ok (normal_form not_below_eps raw vars_list func).
Proof.
  intros Hraw. unfold _combine_terms.
  rewrite (combine_loop_spec Hraw f0 [] I). cbn [map app].
  rewrite (emit_function_terms_spec vars_list func (fun k => group_total k raw)).
  - reflexivity.
  - intros k Hk. destruct (distinct_keys_in _ _ _ Hk) as (f & Hf & ->).
    rewrite Forall_forall in Hraw. exact (proj1 (Hraw _ Hf)).
Qed.

Lemma combine_terms_normal_form_witness :
  _combine_terms mixed_terms [lit "n"] (lit "T") =
  Ok [ConstantTerm f3; T_term f3 fm1; T_term f1 fm2].
Proof.
  rewrite (@combine_terms_normal_form mixed_terms [lit "n"] (lit "T")).
  - vm_compute. reflexivity.
  - repeat constructor.
Defined.

(** ** Rounding never produces a NaN *)

Lemma iter_pos_invariant {A : Type} (P : A -> Prop) (f : A -> A) :
  (forall x, P x -> P (f x)) ->
  forall (p : positive) (x : A), P x -> P (SpecFloat.iter_pos f p x).
Proof.
  intros Hf. induction p as [p IH | p IH | ]; intros x Hx; cbn [SpecFloat.iter_pos]; auto.
Qed.

Lemma shr_1_nonneg (mrs : shr_record) :
  (0 <= shr_m mrs)%Z -> (0 <= shr_m (shr_1 mrs))%Z.
Proof.
  destruct mrs as [m r s]. cbn [shr_m shr_1].
  destruct m as [|[p|p|]|[p|p|]]; cbn [shr_m]; lia.
Qed.

Lemma shr_fexp_nonneg (m e : Z) (l : location) :
  (0 <= m)%Z -> (0 <= shr_m (fst (shr_fexp prec emax m e l)))%Z.
Proof.
  intros Hm. unfold shr_fexp, shr.
  assert (H0 : (0 <= shr_m (shr_record_of_loc m l))%Z)
    by (destruct l as [|[]]; exact Hm).
  destruct (fexp prec emax (Zdigits2 m + e) - e)%Z; cbn [fst]; try exact H0.
  now apply iter_pos_invariant; [ exact shr_1_nonneg | ].
Qed.

Lemma round_nearest_even_nonneg (m : Z) (l : location) :
  (0 <= m)%Z -> (0 <= round_nearest_even m l)%Z.
Proof.
  intros Hm. destruct l as [|[]]; cbn [round_nearest_even]; try lia.
  destruct (Z.even m); lia.
Qed.

Lemma binary_round_aux_not_nan (sx : bool) (mx ex : Z) (lx : location) :
  (0 <= mx)%Z -> isnan (binary_round_aux prec emax sx mx ex lx) = false.
Proof.
  intros Hm. unfold binary_round_aux.
  pose proof (shr_fexp_nonneg ex lx Hm) as H1.
  destruct (shr_fexp prec emax mx ex lx) as [mrs' e']. cbn [fst] in H1.
  pose proof (shr_fexp_nonneg e' loc_Exact
                (round_nearest_even_nonneg (loc_of_shr_record mrs') H1)) as H2.
  destruct (shr_fexp prec emax _ e' loc_Exact) as [mrs'' e'']. cbn [fst] in H2.
  destruct (shr_m mrs'') as [|p|p]; [ reflexivity | | lia ].
  now destruct (e'' <=? emax - prec)%Z.
Qed.

Lemma binary_normalize_not_nan (m e : Z) (sz : bool) :
  isnan (binary_normalize prec emax m e sz) = false.
Proof.
  destruct m as [|p|p]; cbn [binary_normalize]; [ reflexivity | | ];
    unfold binary_round;
    destruct (shl_align _ _ _) as [mz ez]; now apply binary_round_aux_not_nan.
Qed.

Lemma of_ratio_not_nan (n : Z) (d : positive) : isnan (of_ratio n d) = false.
Proof.
  unfold of_ratio. destruct n; [ reflexivity | | ]; apply binary_normalize_not_nan.
Qed.

(** Sums, differences and products of doubles that are finite are not
    NaN. *)
Lemma fmul_finite_not_nan (x y : float) :
  isfinite x = true -> isfinite y = true -> isnan (x * y)%b64 = false.
Proof.
  destruct x as [sx|sx| |sx mx ex], y as [sy|sy| |sy my ey];
    try discriminate; intros _ _; try reflexivity.
  now apply binary_round_aux_not_nan.
Qed.

(** ** parser.py: what [parse_raw] returns *)

Lemma mapM_Forall {A B : Type} (f : A -> result B) (P : B -> Prop) :
  (forall x y, f x = Ok y -> P y) ->
  forall xs ys, mapM f xs = Ok ys -> Forall P ys.
Proof.
  intros Hf. induction xs as [|x xs IH]; intros ys H; cbn [mapM] in H.
  - injection H as <-. constructor.
  - destruct (f x) as [y|e] eqn:E; cbn [bind] in H; [ | discriminate ].
    destruct (mapM f xs) as [ys'|e] eqn:E'; cbn [bind] in H; [ | discriminate ].
    injection H as <-. constructor; eauto.
Qed.

Section ParserFacts.
Context {U : Unicode}.

Lemma float_of_number_not_nan (n : number) : isnan (float_of_number n) = false.
Proof.
  unfold float_of_number.
  destruct (digits_value _ =? 0)%Z; [ reflexivity | apply of_ratio_not_nan ].
Qed.

Lemma parse_shift_not_nan (arg var summand : str) (s : float) :
  _parse_shift arg var summand = Ok s -> isnan s = false.
Proof.
  unfold _parse_shift.
  destruct (starts_with var arg); [ | discriminate ].
  destruct (at_end (skipn (List.length var) arg)).
  - intros H. injection H as <-. reflexivity.
  - destruct (signed_prefix _) as [[n tail]|]; [ | discriminate ].
    destruct (at_end tail); [ | discriminate ].
    intros H. injection H as <-. apply float_of_number_not_nan.
Qed.

Lemma parse_shifts_spec (summand : str) :
  forall (args_raw vars_list : list str) (ss : list float),
    List.length args_raw = List.length vars_list ->
    parse_shifts args_raw vars_list summand = Ok ss ->
    List.length ss = List.length vars_list /\ valid_key ss = true.
Proof.
  induction args_raw as [|arg args IH]; intros [|var vs] ss Hlen H;
    try discriminate; cbn [parse_shifts] in H.
  - injection H as <-. split; reflexivity.
  - destruct (_parse_shift arg var summand) as [s|e] eqn:Es; cbn [bind] in H;
      [ | discriminate ].
    destruct (parse_shifts args vs summand) as [ss'|e] eqn:Ess; cbn [bind] in H;
      [ | discriminate ].
    injection H as <-. injection Hlen as Hlen.
    destruct (IH _ _ Hlen Ess) as [H1 H2]. split.
    + cbn [List.length]. now rewrite H1.
    + cbn [valid_key forallb]. rewrite (parse_shift_not_nan _ _ _ Es).
      exact H2.
Qed.

Lemma parse_term_spec (summand func : str) (vars_list : list str) (t : Term) :
  _parse_term summand func vars_list = Ok t ->
  well_shifted vars_list t /\ same_signature func vars_list t.
Proof.
  unfold _parse_term.
  destruct (match_number summand) as [n|].
  - intros H. injection H as <-. split; exact I.
  - destruct (match_term summand) as [[[coef_str fn_name] args_str]|];
      [ | discriminate ].
    destruct (negb (is_valid_identifier fn_name)); [ discriminate | ].
    destruct (negb (str_eqb fn_name func)); [ discriminate | ].
    destruct (Nat.eqb_spec (List.length (map strip (split 44 args_str)))
                           (List.length vars_list)) as [Hlen|];
      cbn [negb]; [ | discriminate ].
    destruct (parse_shifts _ vars_list summand) as [ss|e] eqn:Ess;
      cbn [bind]; [ | discriminate ].
    destruct (parse_shifts_spec _ _ _ Hlen Ess) as [H1 H2].
    unfold FunctionTerm_init. rewrite H1, Nat.eqb_refl. cbn [negb bind].
    intros H. injection H as <-. repeat split; assumption.
Qed.

Lemma check_vars_spec (raw_args : list str) :
  forall (acc vs : list str),
    NoDup acc ->
    check_vars raw_args acc = Ok vs ->
    vs = acc ++ raw_args /\ NoDup vs /\
    Forall (fun v => is_valid_identifier v = true) raw_args.
Proof.
  induction raw_args as [|arg rest IH]; intros acc vs Hnd H; cbn [check_vars] in H.
  - injection H as <-. rewrite app_nil_r. repeat split; [ assumption | constructor ].
  - destruct (is_valid_identifier arg) eqn:Ev; cbn [negb] in H; [ | discriminate ].
    destruct (existsb (str_eqb arg) acc) eqn:Ed; [ discriminate | ].
    assert (Hnd' : NoDup (acc ++ [arg])).
    { apply NoDup_app; [ exact Hnd | repeat constructor; intros [] | ].
      intros x Hx [E | []]. subst x.
      assert (X : existsb (str_eqb arg) acc = true).
      { apply existsb_exists. exists arg. split; [ exact Hx | ].
        unfold str_eqb. now destruct (list_eq_dec N.eq_dec arg arg). }
      congruence. }
    destruct (IH _ _ Hnd' H) as (-> & H2 & H3).
    split; [ now rewrite <- app_assoc | ].
    split; [ assumption | now constructor ].
Qed.

(** What [parse_raw] returns: the signature and the summands over it. *)
Lemma parse_raw_spec (text : str) (l : FunctionTerm) (raw : list Term) :
  parse_raw text = Ok (l, raw) ->
  coef l = f1 /\
  shifts l = repeat f0 (List.length (vars l)) /\
  is_valid_identifier (func l) = true /\
  vars l <> [] /\ NoDup (vars l) /\
  Forall (fun v => is_valid_identifier v = true) (vars l) /\
  Forall (well_shifted (vars l)) raw /\
  Forall (same_signature (func l) (vars l)) raw.
Proof.
  unfold parse_raw.
  destruct (filter _ text); [ discriminate | ].
  destruct (split 61 _) as [|lhs_str [|rhs_str [|]]]; try discriminate.
  destruct (negb (nonempty lhs_str)); [ discriminate | ].
  destruct (negb (nonempty rhs_str)); [ discriminate | ].
  destruct (match_call lhs_str) as [[fn raw_args_str]|]; [ | discriminate ].
  destruct (is_valid_identifier fn) eqn:Efn; cbn [negb]; [ | discriminate ].
  destruct (filter nonempty (map strip (split 44 raw_args_str)))
    as [|a0 args] eqn:Eargs; [ discriminate | ].
  destruct (check_vars (a0 :: args) []) as [vs|e] eqn:Ecv; cbn [bind];
    [ | discriminate ].
  destruct (check_vars_spec _ (NoDup_nil _) Ecv) as (Hvs & Hnd & Hval).
  cbn [app] in Hvs. subst vs.
  unfold FunctionTerm_init at 1.
  rewrite repeat_length, Nat.eqb_refl. cbn [negb bind].
  destruct (filter nonempty (map strip (_split_rhs rhs_str))) as [|s0 ss];
    [ discriminate | ].
  match goal with
  | |- bind ?r _ = _ -> _ => destruct r as [raw_terms|e] eqn:Eraw
  end; cbn [bind]; [ | discriminate ].
  intros H. injection H as <- <-. cbn [coef shifts func vars].
  assert (Hterms : Forall (fun t => well_shifted (a0 :: args) t /\
                                     same_signature fn (a0 :: args) t) raw_terms).
  { assert (Hall : forall xs ys,
               mapM (fun s => _parse_term s fn (a0 :: args)) xs = Ok ys ->
               Forall (fun t => well_shifted (a0 :: args) t /\
                                same_signature fn (a0 :: args) t) ys).
    { apply mapM_Forall. intros x y. apply parse_term_spec. }
    destruct ss as [|s1 ss].
    - destruct (match_number s0).
      + injection Eraw as <-. repeat constructor.
      + eapply Hall. exact Eraw.
    - eapply Hall. exact Eraw. }
  repeat split; try assumption; try discriminate.
  - eapply Forall_impl; [ | exact Hterms ]. now intros t [].
  - eapply Forall_impl; [ | exact Hterms ]. now intros t [].
Qed.

End ParserFacts.

(** ** parser.py: what [parse_recurrence] returns *)

Lemma distinct_keys_distinct (raw : list Term) :
  forall seen, distinct (distinct_keys raw seen).
Proof.
  induction raw as [|t raw IH]; intros seen; [ exact I | ].
  destruct t as [f | x]; cbn [distinct_keys]; [ | apply IH ].
  destruct (existsb (fun k => key_eqb k (shifts f)) seen); [ apply IH | ].
  cbn [distinct]. split; [ | apply IH ].
  intros k' Hk'. apply (distinct_keys_new _ _ _ _ Hk').
  apply in_or_app. right. now left.
Qed.

Lemma distinct_filter (p : key -> bool) (ks : list key) :
  distinct ks -> distinct (filter p ks).
Proof.
  induction ks as [|k ks IH]; [ trivial | ].
  cbn [distinct filter]. intros [H1 H2].
  destruct (p k); [ | now apply IH ].
  cbn [distinct]. split; [ | now apply IH ].
  intros k' Hk'. apply H1. apply filter_In in Hk'. tauto.
Qed.

Lemma function_terms_app (a b : list Term) :
  function_terms (a ++ b) = function_terms a ++ function_terms b.
Proof. unfold function_terms. apply flat_map_app. Qed.

Lemma function_terms_map (fs : list FunctionTerm) :
  function_terms (map FunctionTerm_ fs) = fs.
Proof.
  induction fs as [|f fs IH]; [ reflexivity | ].
  cbn [map]. unfold function_terms in *. cbn [flat_map app]. now rewrite IH.
Qed.

Lemma function_terms_normal_form (keep : float -> bool) (raw : list Term)
  (vars_list : list str) (fn : str) :
  function_terms (normal_form keep raw vars_list fn) =
  map (fun k => mkFunctionTerm (group_total k raw) fn vars_list k)
      (filter (fun k => keep (group_total k raw)) (distinct_keys raw [])).
Proof.
  unfold normal_form. rewrite function_terms_app.
  replace (function_terms (constant_part raw)) with (@nil FunctionTerm)
    by (unfold constant_part; now destruct (eps12 <? _)%b64).
  cbn [app]. rewrite <- (map_map _ FunctionTerm_). apply function_terms_map.
Qed.

Lemma normal_form_constant (keep : float -> bool) (raw : list Term)
  (vars_list : list str) (fn : str) (i : nat) (c : float) :
  nth_error (normal_form keep raw vars_list fn) i = Some (ConstantTerm c) ->
  i = 0 /\ c = constant_total raw.
Proof.
  unfold normal_form, constant_part.
  destruct (eps12 <? _)%b64; cbn [app]; [ destruct i as [|i]; cbn [nth_error] | ].
  - intros H. injection H as <-. split; reflexivity.
  - intros H. apply nth_error_In, in_map_iff in H as (k & Hk & _). discriminate.
  - intros H. apply nth_error_In, in_map_iff in H as (k & Hk & _). discriminate.
Qed.

Lemma lhs_shifts_zero (n : nat) :
  existsb (fun s => negb (s == f0)%b64) (repeat f0 n) = false.
Proof. induction n as [|n IH]; [ reflexivity | ]. cbn [repeat existsb]. exact IH. Qed.

Section ParseResult.
Context {U : Unicode}.

(** [parse_recurrence] is [parse_raw] followed by the normal form; neither
    [_combine_terms] nor the constructor of [Recurrence] raises. *)
Lemma parse_recurrence_spec (text : str) (l : FunctionTerm) (raw : list Term) :
  parse_raw text = Ok (l, raw) ->
  parse_recurrence text =
  Ok (mkRecurrence l (normal_form not_below_eps raw (vars l) (func l))).
Proof.
  intros H. unfold parse_recurrence. rewrite H. cbn [bind].
  destruct (parse_raw_spec _ H) as (Hc & Hs & _ & _ & _ & _ & Hw & _).
  rewrite (combine_terms_spec (func l) Hw). cbn [bind].
  unfold Recurrence_init. rewrite Hc, Hs, lhs_shifts_zero. reflexivity.
Qed.

Lemma parse_recurrence_inv (text : str) (rec : Recurrence) :
  parse_recurrence text = Ok rec ->
  exists raw,
    parse_raw text = Ok (lhs rec, raw) /\
    rhs rec = normal_form not_below_eps raw (vars (lhs rec)) (func (lhs rec)).
Proof.
  intros H. destruct (parse_raw text) as [[l raw]|e] eqn:E.
  - rewrite (parse_recurrence_spec _ E) in H. injection H as <-.
    exists raw. split; reflexivity.
  - unfold parse_recurrence in H. rewrite E in H. discriminate.
Qed.

(** X2.  Every recurrence [parse_recurrence] returns is normalised: a
    constant term occurs at most once and then first; the shift vectors of
    its function terms are pairwise different under [==]; and each function
    term carries the sum of the coefficients of all summands of the input
    with its shift vector. *)
Theorem parse_result_normalized (text : str) (rec : Recurrence) :
  parse_recurrence text = Ok rec ->
  exists raw,
    parse_raw text = Ok (lhs rec, raw) /\
    (forall i c, nth_error (rhs rec) i = Some (ConstantTerm c) ->
                 i = 0 /\ c = constant_total raw) /\
    distinct (map shifts (function_terms (rhs rec))) /\
    (forall f, In (FunctionTerm_ f) (rhs rec) ->
               coef f = group_total (shifts f) raw /\
               exists g, In (FunctionTerm_ g) raw /\ shifts g = shifts f).
Proof.
  intros H. destruct (parse_recurrence_inv _ H) as (raw & Hraw & Hrhs).
  exists raw. split; [ exact Hraw | ]. rewrite Hrhs.
  split; [ apply normal_form_constant | ]. repeat split.
  - rewrite function_terms_normal_form, map_map. cbn [shifts].
    rewrite map_id. apply distinct_filter, distinct_keys_distinct.
  - unfold normal_form in H0. apply in_app_or in H0 as [H0 | H0].
    + unfold constant_part in H0.
      destruct (eps12 <? _)%b64; [ destruct H0 as [|[]] | destruct H0 ]; discriminate.
    + apply in_map_iff in H0 as (k & Hk & _). injection Hk as <-. reflexivity.
  - unfold normal_form in H0. apply in_app_or in H0 as [H0 | H0].
    + unfold constant_part in H0.
      destruct (eps12 <? _)%b64; [ destruct H0 as [|[]] | destruct H0 ]; discriminate.
    + apply in_map_iff in H0 as (k & Hk & Hin). injection Hk as <-.
      cbn [shifts]. apply filter_In in Hin as [Hin _].
      destruct (distinct_keys_in _ _ _ Hin) as (g & Hg & ->). eauto.
Qed.

Lemma parse_result_signature_rhs (text : str) (rec : Recurrence) :
  parse_recurrence text = Ok rec ->
  forall f, In (FunctionTerm_ f) (rhs rec) ->
            List.length (shifts f) = List.length (vars (lhs rec)).
Proof.
  intros H. destruct (parse_recurrence_inv _ H) as (raw & Hraw & Hrhs).
  destruct (parse_raw_spec _ Hraw) as (_ & _ & _ & _ & _ & _ & H7 & _).
  intros f Hf. rewrite Hrhs in Hf. unfold normal_form in Hf.
  apply in_app_or in Hf as [Hf | Hf].
  - unfold constant_part in Hf.
    destruct (eps12 <? _)%b64; [ destruct Hf as [|[]] | destruct Hf ]; discriminate.
  - apply in_map_iff in Hf as (k & Hk & Hin). injection Hk as <-.
    cbn [shifts]. apply filter_In in Hin as [Hin _].
    destruct (distinct_keys_in _ _ _ Hin) as (g & Hg & ->).
    rewrite Forall_forall in H7. exact (proj1 (H7 _ Hg)).
Qed.

End ParseResult.

Lemma parse_mixed :
  ref_parse (lit "T(n) = T(n-1) + 3 + 2*T(n-1) + T(n-2)") = Ok mixed_rec.
Proof. vm_compute. reflexivity. Qed.

Lemma parse_result_normalized_witness :
  distinct (map shifts (function_terms (rhs mixed_rec))) /\
  forall f, In (FunctionTerm_ f) (rhs mixed_rec) ->
            exists raw, coef f = group_total (shifts f) raw.
Proof.
  destruct (@parse_result_normalized Reference.basic_latin _ _ parse_mixed)
    as (raw & _ & _ & D & G).
  split; [ exact D | ].
  intros f Hf. exists raw. exact (proj1 (G f Hf)).
Defined.

Section ParseSignature.
Context {U : Unicode}.

(** X3.  Every recurrence [parse_recurrence] returns has a well-formed
    signature: the left-hand side has coefficient [1.0] and one shift [0.0]
    per variable, its name and its variables are valid identifiers, there is
    at least one variable and no variable occurs twice; and every function
    term of the right-hand side has the name and the variables of the
    left-hand side and one shift, not a NaN, per variable. *)
Theorem parse_result_signature (text : str) (rec : Recurrence) :
  parse_recurrence text = Ok rec ->
  coef (lhs rec) = f1 /\
  shifts (lhs rec) = repeat f0 (List.length (vars (lhs rec))) /\
  is_valid_identifier (func (lhs rec)) = true /\
  vars (lhs rec) <> [] /\
  NoDup (vars (lhs rec)) /\
  Forall (fun v => is_valid_identifier v = true) (vars (lhs rec)) /\
  forall f, In (FunctionTerm_ f) (rhs rec) ->
            func f = func (lhs rec) /\ vars f = vars (lhs rec) /\
            List.length (shifts f) = List.length (vars (lhs rec)) /\
            valid_key (shifts f) = true.
Proof.
  intros H. destruct (parse_recurrence_inv _ H) as (raw & Hraw & Hrhs).
  destruct (parse_raw_spec _ Hraw) as (H1 & H2 & H3 & H4 & H5 & H6 & H7 & _).
  repeat (split; [ assumption | ]).
  intros f Hf. rewrite Hrhs in Hf. unfold normal_form in Hf.
  apply in_app_or in Hf as [Hf | Hf].
  - unfold constant_part in Hf.
    destruct (eps12 <? _)%b64; [ destruct Hf as [|[]] | destruct Hf ]; discriminate.
  - apply in_map_iff in Hf as (k & Hk & Hin). injection Hk as <-.
    cbn [func vars shifts]. apply filter_In in Hin as [Hin _].
    destruct (distinct_keys_in _ _ _ Hin) as (g & Hg & ->).
    rewrite Forall_forall in H7. destruct (H7 _ Hg) as [Hl Hv].
    repeat split; assumption.
Qed.

End ParseSignature.

Lemma parse_result_signature_witness :
  NoDup (vars (lhs mixed_rec)) /\
  forall f, In (FunctionTerm_ f) (rhs mixed_rec) -> vars f = [lit "n"].
Proof.
  destruct (@parse_result_signature Reference.basic_latin _ _ parse_mixed)
    as (_ & _ & _ & _ & N & _ & S).
  split; [ exact N | ]. intros f Hf. exact (proj1 (proj2 (S f Hf))).
Defined.

(** ** parser.py: the exceptions of [parse_recurrence] *)

Lemma mapM_raises {A B : Type} (f : A -> result B) (P : exn -> Prop) :
  (forall x e, f x = Raise e -> P e) ->
  forall xs e, mapM f xs = Raise e -> P e.
Proof.
  intros Hf. induction xs as [|x xs IH]; intros e H; cbn [mapM] in H;
    [ discriminate | ].
  destruct (f x) as [y|e'] eqn:E; cbn [bind] in H.
  - destruct (mapM f xs) as [ys|e''] eqn:E'; cbn [bind] in H; [ discriminate | ].
    injection H as <-. now apply IH.
  - injection H as <-. eauto.
Qed.

Section ParseErrors.
Context {U : Unicode}.

Lemma parse_shift_raises (arg var summand : str) (e : exn) :
  _parse_shift arg var summand = Raise e -> is_parse_error e.
Proof.
  unfold _parse_shift.
  destruct (starts_with var arg); [ | intros H; injection H as <-; exact I ].
  destruct (at_end _); [ discriminate | ].
  destruct (signed_prefix _) as [[n tail]|];
    [ | intros H; injection H as <-; exact I ].
  destruct (at_end tail); [ discriminate | intros H; injection H as <-; exact I ].
Qed.

Lemma parse_shifts_raises (summand : str) (e : exn) :
  forall args_raw vars_list,
    parse_shifts args_raw vars_list summand = Raise e -> is_parse_error e.
Proof.
  induction args_raw as [|arg args IH]; intros [|var vs] H;
    cbn [parse_shifts] in H; try discriminate.
  destruct (_parse_shift arg var summand) as [s|e'] eqn:Es; cbn [bind] in H.
  - destruct (parse_shifts args vs summand) as [ss|e''] eqn:Ess; cbn [bind] in H;
      [ discriminate | ].
    injection H as <-. eapply IH. exact Ess.
  - injection H as <-. eapply parse_shift_raises. exact Es.
Qed.

Lemma parse_term_raises (summand func : str) (vars_list : list str) (e : exn) :
  _parse_term summand func vars_list = Raise e -> is_parse_error e.
Proof.
  unfold _parse_term.
  destruct (match_number summand); [ discriminate | ].
  destruct (match_term summand) as [[[coef_str fn_name] args_str]|];
    [ | intros H; injection H as <-; exact I ].
  destruct (negb (is_valid_identifier fn_name));
    [ intros H; injection H as <-; exact I | ].
  destruct (negb (str_eqb fn_name func));
    [ intros H; injection H as <-; exact I | ].
  destruct (Nat.eqb_spec (List.length (map strip (split 44 args_str)))
                         (List.length vars_list)) as [Hlen|];
    cbn [negb]; [ | intros H; injection H as <-; exact I ].
  destruct (parse_shifts _ vars_list summand) as [ss|e'] eqn:Ess; cbn [bind].
  - destruct (parse_shifts_spec _ _ _ Hlen Ess) as [H1 _].
    unfold FunctionTerm_init. rewrite H1, Nat.eqb_refl. discriminate.
  - intros H. injection H as <-. eapply parse_shifts_raises. exact Ess.
Qed.

Lemma check_vars_raises (raw_args : list str) (e : exn) :
  forall acc, check_vars raw_args acc = Raise e -> is_parse_error e.
Proof.
  induction raw_args as [|arg rest IH]; intros acc H; cbn [check_vars] in H;
    [ discriminate | ].
  destruct (negb (is_valid_identifier arg)); [ injection H as <-; exact I | ].
  destruct (existsb (str_eqb arg) acc); [ injection H as <-; exact I | ].
  eapply IH. exact H.
Qed.

Lemma parse_raw_raises (text : str) (e : exn) :
  parse_raw text = Raise e -> is_parse_error e.
Proof.
  unfold parse_raw.
  destruct (filter _ text); [ intros H; injection H as <-; exact I | ].
  destruct (split 61 _) as [|lhs_str [|rhs_str [|]]];
    try (intros H; injection H as <-; exact I).
  destruct (negb (nonempty lhs_str)); [ intros H; injection H as <-; exact I | ].
  destruct (negb (nonempty rhs_str)); [ intros H; injection H as <-; exact I | ].
  destruct (match_call lhs_str) as [[fn raw_args_str]|];
    [ | intros H; injection H as <-; exact I ].
  destruct (negb (is_valid_identifier fn));
    [ intros H; injection H as <-; exact I | ].
  destruct (filter nonempty (map strip (split 44 raw_args_str))) as [|a0 args];
    [ intros H; injection H as <-; exact I | ].
  destruct (check_vars (a0 :: args) []) as [vs|e'] eqn:Ecv; cbn [bind].
  2:{ intros H. injection H as <-. eapply check_vars_raises. exact Ecv. }
  unfold FunctionTerm_init at 1.
  rewrite repeat_length, Nat.eqb_refl. cbn [negb bind].
  destruct (filter nonempty (map strip (_split_rhs rhs_str))) as [|s0 ss];
    [ intros H; injection H as <-; exact I | ].
  match goal with
  | |- bind ?r _ = _ -> _ => destruct r as [raw_terms|e'] eqn:Eraw
  end; cbn [bind]; [ discriminate | ].
  intros H. injection H as <-.
  assert (Hall : forall xs,
             mapM (fun s => _parse_term s fn vs) xs = Raise e' ->
             is_parse_error e').
  { intros xs. apply mapM_raises. intros x e0. apply parse_term_raises. }
  destruct ss as [|s1 ss].
  - destruct (match_number s0); [ discriminate | eapply Hall; exact Eraw ].
  - eapply Hall. exact Eraw.
Qed.

(** X4.  Whatever the text, [parse_recurrence] raises nothing but
    [ParseError]: the checks of the constructors of [FunctionTerm] and
    [Recurrence] never fail on what the parser builds. *)
Theorem parse_raises_only_ParseError (text : str) (e : exn) :
  parse_recurrence text = Raise e -> exists why, e = ParseError why.
Proof.
  intros H. destruct (parse_raw text) as [[l raw]|e'] eqn:E.
  - rewrite (parse_recurrence_spec _ E) in H. discriminate.
  - unfold parse_recurrence in H. rewrite E in H. cbn [bind] in H.
    injection H as <-. pose proof (parse_raw_raises _ E) as P.
    destruct e'; try destruct P. eauto.
Qed.

End ParseErrors.

Lemma parse_raises_only_ParseError_witness :
  exists why, ParseError (InvalidTerm (lit "2*T(n-1)-T(n-2)")) = ParseError why.
Proof.
  refine (@parse_raises_only_ParseError Reference.basic_latin
            (lit "T(n) = 2*T(n-1) - T(n-2)") _ _).
  vm_compute. reflexivity.
Defined.

(** ** solver.py: the outcomes of [solve_recurrence] *)

Section SolveOutcomes.
Context {NP : Numerics} {SP : SciPy}.


(** [solve_recurrence] past the check of the number of variables, with the
    deltas extracted. *)
Lemma solve_recurrence_unfold (rec : Recurrence) (deltas : list float) :
  List.length (vars (lhs rec)) = 1 ->
  function_terms (rhs rec) <> [] ->
  mapM delta_of (function_terms (rhs rec)) = Ok deltas ->
  let g := g_rec (map coef (function_terms (rhs rec))) deltas in
  solve_recurrence rec =
  if existsb (fun d => d <=? f0)%b64 deltas then Ok PENALTY
  else if (fabs (g f1) <? eps12)%b64 then Ok f1
  else if (g f1 <? f0)%b64 then Ok PENALTY
  else match upper_bracket g 50 f2 with
       | None => Ok PENALTY
       | Some b =>
           match root_scalar_brentq g f1 b with
           | Some (true, root) =>
               match snap_int root 6 with
               | Ok r => Ok r
               | Raise _ => Ok PENALTY
               end
           | _ => Ok PENALTY
           end
       end.
Proof.
  intros Hvar Hne Hd g. unfold solve_recurrence.
  rewrite Hvar. cbn [Nat.eqb negb]. cbv iota.
  destruct (function_terms (rhs rec)) as [|t ts] eqn:Eft; [ congruence | ].
  rewrite Hd. cbv beta iota delta [bind]. reflexivity.
Qed.


End SolveOutcomes.



Lemma delta_of_total (fts : list FunctionTerm) :
  (forall f, In f fts -> List.length (shifts f) = 1) ->
  exists deltas, mapM delta_of fts = Ok deltas.
Proof.
  induction fts as [|f fts IH]; intros H; [ now exists [] | ].
  destruct IH as [ds Hds]; [ intros g Hg; apply H; now right | ].
  pose proof (H f (or_introl eq_refl)) as Hf.
  cbn [mapM]. unfold delta_of at 1.
  destruct (shifts f) as [|s rest]; [ discriminate | ].
  cbn [bind]. rewrite Hds. cbn [bind]. eauto.
Qed.

Lemma in_function_terms (f : FunctionTerm) (ts : list Term) :
  In f (function_terms ts) <-> In (FunctionTerm_ f) ts.
Proof.
  unfold function_terms. rewrite in_flat_map. split.
  - intros ([g | c] & Hin & Hf); [ | destruct Hf ].
    destruct Hf as [<- | []]. exact Hin.
  - intros Hin. exists (FunctionTerm_ f). split; [ exact Hin | now left ].
Qed.

Section SolveParsed.
Context {U : Unicode} {NP : Numerics} {SP : SciPy}.

(** X7.  On a recurrence the parser returned, [solve_recurrence] raises
    exactly when the recurrence does not have one variable, and what it
    raises then is [ValueError]; with one variable it returns a root or a
    sentinel, whatever the libraries do. *)
Theorem solve_parsed_raises_iff (text : str) (rec : Recurrence) :
  parse_recurrence text = Ok rec ->
  (List.length (vars (lhs rec)) <> 1 -> solve_recurrence rec = Raise ValueError) /\
  (List.length (vars (lhs rec)) = 1 -> exists r, solve_recurrence rec = Ok r).
Proof.
  intros H. split; intros Hvar.
  - unfold solve_recurrence.
    destruct (Nat.eqb_spec (List.length (vars (lhs rec))) 1); [ contradiction | ].
    reflexivity.
  - pose proof (parse_result_signature_rhs _ H) as Hsig.
    destruct (delta_of_total (function_terms (rhs rec))) as [deltas Hd].
    { intros f Hf. apply in_function_terms in Hf.
      rewrite (Hsig f Hf). exact Hvar. }
    destruct (function_terms (rhs rec)) as [|t ts] eqn:Eft.
    + exists f1. unfold solve_recurrence. rewrite Hvar, Eft. reflexivity.
    + assert (Hne : function_terms (rhs rec) <> []) by (rewrite Eft; discriminate).
      rewrite <- Eft in Hd.
      rewrite (solve_recurrence_unfold rec Hvar Hne Hd).
      destruct (existsb _ deltas); [ eauto | ].
      destruct (fabs _ <? eps12)%b64; [ eauto | ].
      destruct (_ <? f0)%b64; [ eauto | ].
      destruct (upper_bracket _ 50 f2) as [b|]; [ | eauto ].
      destruct (root_scalar_brentq _ f1 b) as [[[] root]|]; eauto.
      destruct (snap_int root 6); eauto.
Qed.

End SolveParsed.

Lemma parse_grid :
  @parse_recurrence Reference.basic_latin (lit "T(m,n) = T(m-1,n) + T(m,n-1)")
  = Ok grid_rec.
Proof. vm_compute. reflexivity. Qed.

Lemma solve_parsed_raises_iff_witness :
  @solve_recurrence Reference.numerics Reference.scipy grid_rec = Raise ValueError.
Proof.
  refine (proj1 (@solve_parsed_raises_iff Reference.basic_latin
                   Reference.numerics Reference.scipy _ _ parse_grid) _).
  discriminate.
Defined.

(** ** solver.py: a single term *)

Lemma negative_shift_delta (s : float) :
  (s <? f0)%b64 = true -> ((- s) <=? f0)%b64 = false.
Proof. destruct s as [[]|[]| |[] m e]; try discriminate; reflexivity. Qed.

Section SingleTerm.
Context {NP : Numerics} {SP : SciPy} {L : NumericsLaws NP}.

(** X8.  A recurrence in one variable whose only function term has
    coefficient [1.0] and a finite negative shift, [T(n) = T(n-k)] with or
    without constants beside it, solves to exactly [1.0]. *)
Theorem single_term_identity (rec : Recurrence) (f : FunctionTerm)
  (s : float) (rest : list float) :
  List.length (vars (lhs rec)) = 1 ->
  function_terms (rhs rec) = [f] ->
  coef f = f1 ->
  shifts f = s :: rest ->
  isfinite s = true ->
  (s <? f0)%b64 = true ->
  solve_recurrence rec = Ok f1.
Proof.
  intros Hvar Hft Hc Hs Hfin Hneg.
  assert (Hd : mapM delta_of (function_terms (rhs rec)) = Ok [(- s)%b64]).
  { rewrite Hft. cbn [mapM]. unfold delta_of. rewrite Hs. reflexivity. }
  assert (Hne : function_terms (rhs rec) <> []) by (rewrite Hft; discriminate).
  rewrite (solve_recurrence_unfold rec Hvar Hne Hd).
  cbn [existsb]. rewrite (negative_shift_delta _ Hneg). cbn [orb].
  rewrite Hft. cbn [map]. rewrite Hc.
  rewrite g_rec_at_one; [ | | reflexivity ].
  - cbn [map]. rewrite np_sum_single by reflexivity.
    change (fabs (f1 * f1 - f1) <? eps12)%b64 with true. reflexivity.
  - cbn [forallb]. now destruct s.
Qed.

End SingleTerm.

Lemma single_term_identity_witness :
  @solve_recurrence Reference.numerics Reference.scipy unit_rec = Ok f1.
Proof.
  exact (@single_term_identity Reference.numerics Reference.scipy reference_laws
           unit_rec _ fm1 [] eq_refl eq_refl eq_refl eq_refl eq_refl eq_refl).
Defined.

(** ** solver.py: the outcomes of [find_root] *)

Section FindRoot.
Context {NP : Numerics} {SP : SciPy}.

Lemma expand_bracket_spec (g : float -> float) (n : nat) :
  forall bb b, expand_bracket g n bb = Some b -> bracket_ok (g b) = true.
Proof.
  induction n as [|n IH]; intros bb b H; cbn [expand_bracket] in H;
    [ discriminate | ].
  destruct (bracket_ok (g (py_min (bb * f2)%b64 cap12))) eqn:E.
  - injection H as <-. exact E.
  - exact (IH _ _ H).
Qed.

(** X9.  What [find_root] returns: infinity for no delta, [1.0] for one
    delta whatever it is, and for two or more the sentinel or a root that
    comes with a bracket end [b] where [g(b)] was found finite and at most
    zero; that root is the converged Newton result from a finite warm start,
    accepted only inside [[1, b * 1.000001]], or else the converged result
    of the bracketed root finder on [[1, b]].  The only exception is one the
    bracketed root finder raised. *)
Theorem find_root_outcomes (deltas : list float) (x0 : option float) :
  let g := fun x => fst (_eval_poly_and_derivative x deltas) in
  let gp := fun x => snd (_eval_poly_and_derivative x deltas) in
  (forall r, find_root deltas x0 = Ok r ->
     (deltas = [] /\ r = S754_infinity false) \/
     (List.length deltas = 1 /\ r = f1) \/
     (2 <= List.length deltas /\
      (r = PENALTY \/
       exists b,
         (np_min deltas <=? f0)%b64 = false /\
         bracket_ok (g b) = true /\
         ((exists x, x0 = Some x /\ isfinite x = true /\
                     root_scalar_newton g gp (np_clip x f1 b) 20 = Some (true, r) /\
                     (f1 <=? r)%b64 = true /\
                     (r <=? b * f1_000001)%b64 = true) \/
          root_scalar_brentq g f1 b = Some (true, r))))) /\
  (forall e, find_root deltas x0 = Raise e ->
     e = ValueError /\ 2 <= List.length deltas /\
     exists b, bracket_ok (g b) = true /\ root_scalar_brentq g f1 b = None).
Proof.
  intros g gp. subst g gp.
  destruct deltas as [|d1 [|d2 rest]].
  - split; intros r H; unfold find_root in H; [ | discriminate ].
    left. injection H as <-. split; reflexivity.
  - split; intros r H; unfold find_root in H; [ | discriminate ].
    right. left. injection H as <-. split; reflexivity.
  - assert (Hlen : 2 <= List.length (d1 :: d2 :: rest))
      by (cbn [List.length]; lia).
    unfold find_root.
    destruct (np_min (d1 :: d2 :: rest) <=? f0)%b64 eqn:Emin.
    { split; intros r H; [ | discriminate ].
      right. right. split; [ exact Hlen | left; congruence ]. }
    match goal with
    | |- context [ match ?bo with Some _ => _ | None => Ok PENALTY end ] =>
        destruct bo as [b|] eqn:Eb
    end.
    2:{ split; intros r H; [ | discriminate ].
        right. right. split; [ exact Hlen | left; congruence ]. }
    assert (Hb : bracket_ok (fst (_eval_poly_and_derivative b (d1 :: d2 :: rest)))
                 = true).
    { match type of Eb with
      | (if ?c then _ else _) = _ => destruct c eqn:E0
      end.
      - injection Eb as <-. exact E0.
      - exact (expand_bracket_spec _ _ _ Eb). }
    clear Eb.
    match goal with
    | |- context [ match ?nw with Some root => Ok root | None => ?tail end ] =>
        assert (Htail :
                  (forall r, tail = Ok r ->
                     r = PENALTY \/
                     root_scalar_brentq
                       (fun x => fst (_eval_poly_and_derivative x (d1 :: d2 :: rest)))
                       f1 b = Some (true, r)) /\
                  (forall e, tail = Raise e ->
                     e = ValueError /\
                     root_scalar_brentq
                       (fun x => fst (_eval_poly_and_derivative x (d1 :: d2 :: rest)))
                       f1 b = None));
        [ | destruct nw as [root|] eqn:Enw ]
    end.
    { destruct (root_scalar_brentq _ f1 b) as [[[] root]|];
        split; intros r H; try discriminate; injection H as <-; auto. }
    + split; intros r H; [ | discriminate ].
      injection H as <-. right. right. split; [ exact Hlen | right ].
      exists b. split; [ reflexivity | ]. split; [ exact Hb | left ].
      destruct x0 as [x|]; [ | discriminate ].
      destruct (isfinite x) eqn:Ex; [ | discriminate ].
      destruct (root_scalar_newton _ _ (np_clip x f1 b) 20)
        as [[conv root']|] eqn:En; [ | discriminate ].
      destruct conv; [ | discriminate ].
      destruct (f1 <=? root')%b64 eqn:E1; [ | discriminate ].
      destruct (root' <=? b * f1_000001)%b64 eqn:E2; [ | discriminate ].
      cbn [andb] in Enw. injection Enw as <-.
      exists x. repeat split; assumption.
    + destruct Htail as [T1 T2]. split.
      * intros r H. right. right. split; [ exact Hlen | ].
        destruct (T1 r H) as [-> | Hr]; [ now left | right ].
        exists b. split; [ reflexivity | ]. split; [ exact Hb | now right ].
      * intros e H. destruct (T2 e H) as [-> Hr].
        split; [ reflexivity | ]. split; [ exact Hlen | ]. eauto.
Qed.

End FindRoot.

(** ** parser.py: cancellation *)

(** A finite double and its opposite add up to a zero, exactly. *)
Lemma fadd_opp (c : float) :
  isfinite c = true -> exists z, (f0 + c + - c)%b64 = S754_zero z.
Proof.
  destruct c as [s|s| |s m e]; try discriminate; intros _.
  - destruct s; cbn; eauto.
  - change (f0 + S754_finite s m e)%b64 with (S754_finite s m e).
    unfold fadd, fneg, SFadd, SFopp. rewrite Z.min_id.
    unfold shl_align. rewrite Z.sub_diag. cbn [fst].
    replace (cond_Zopp s (Z.pos m) + cond_Zopp (negb s) (Z.pos m))%Z with 0%Z
      by (destruct s; cbn [cond_Zopp negb]; lia).
    cbn [binary_normalize]. eauto.
Qed.

(** X10.  Opposite terms cancel: two summands over the same shift vector
    whose coefficients are a finite [c] and [-c] normalise to nothing, so
    [T(n-1) + -1*T(n-1)] has an empty right-hand side. *)
Theorem opposite_terms_cancel (c : float) (fn : str) (vs : list str) (k : key) :
  isfinite c = true ->
  List.length k = List.length vs ->
  valid_key k = true ->
  _combine_terms [FunctionTerm_ (mkFunctionTerm c fn vs k);
                  FunctionTerm_ (mkFunctionTerm (- c) fn vs k)] vs fn = Ok [].
Proof.
  intros Hc Hlen Hk.
  rewrite combine_terms_spec by (repeat constructor; assumption).
  unfold normal_form, constant_part, constant_total.
  cbn [fold_left distinct_keys shifts existsb app].
  change (eps12 <? fabs f0)%b64 with false. cbv iota. cbn [app].
  rewrite (key_eqb_refl _ Hk). cbn [orb filter map].
  unfold group_total, group_fold. cbn [fold_left shifts coef].
  rewrite (key_eqb_refl _ Hk).
  destruct (fadd_opp c Hc) as [z ->].
  now destruct z.
Qed.

Lemma opposite_terms_cancel_witness :
  _combine_terms [T_term f2 fm1; T_term (- f2) fm1] [lit "n"] (lit "T") = Ok [].
Proof.
  exact (@opposite_terms_cancel f2 (lit "T") [lit "n"] [fm1] eq_refl eq_refl eq_refl).
Defined.

(** ** parser.py: normalising twice *)

(** Adding a coefficient that is kept to [0.0] gives it back. *)
Lemma fadd_zero_kept (v : float) : not_below_eps v = true -> (f0 + v)%b64 = v.
Proof. destruct v as [[]|[]| |s m e]; try discriminate; reflexivity. Qed.

Lemma fadd_zero_exceeds (c : float) : exceeds_eps c = true -> (f0 + c)%b64 = c.
Proof. destruct c as [[]|[]| |s m e]; try discriminate; reflexivity. Qed.

Section Renormalise.
Variables (fn : str) (vs : list str) (value : key -> float).

Lemma group_fold_keyed (k k1 : key) (rest : list Term) (v0 : float) :
  group_fold k (keyed_term fn vs value k1 :: rest) v0 =
  group_fold k rest (if key_eqb k k1 then (v0 + value k1)%b64 else v0).
Proof. reflexivity. Qed.

Lemma group_fold_none (k : key) (ks : list key) (v0 : float) :
  (forall k', In k' ks -> key_eqb k k' = false) ->
  group_fold k (map (keyed_term fn vs value) ks) v0 = v0.
Proof.
  revert v0. induction ks as [|k1 ks IH]; intros v0 H; [ reflexivity | ].
  cbn [map]. rewrite group_fold_keyed.
  rewrite (H k1 (or_introl eq_refl)). apply IH. intros k' Hk'. apply H. now right.
Qed.

Lemma group_fold_one (k : key) (ks : list key) (v0 : float) :
  distinct ks -> In k ks -> valid_key k = true ->
  group_fold k (map (keyed_term fn vs value) ks) v0 = (v0 + value k)%b64.
Proof.
  revert v0. induction ks as [|k1 ks IH]; intros v0 Hd Hin Hv; [ destruct Hin | ].
  cbn [map]. rewrite group_fold_keyed.
  destruct Hd as [H1 H2]. destruct Hin as [-> | Hin].
  - rewrite (key_eqb_refl _ Hv). now apply group_fold_none.
  - rewrite key_eqb_sym, (H1 k Hin). now apply IH.
Qed.

Lemma constant_total_keyed (cs : list Term) (ks : list key) :
  constant_total (cs ++ map (keyed_term fn vs value) ks) = constant_total cs.
Proof.
  unfold constant_total. rewrite fold_left_app.
  generalize (fold_left
                (fun acc t => match t with
                              | ConstantTerm c => (acc + c)%b64
                              | FunctionTerm_ _ => acc
                              end) cs f0).
  induction ks as [|k ks IH]; intros v; [ reflexivity | ].
  cbn [map fold_left keyed_term]. apply IH.
Qed.

Lemma distinct_keys_of_distinct (ks : list key) :
  forall seen,
    distinct ks ->
    (forall s k, In s seen -> In k ks -> key_eqb s k = false) ->
    distinct_keys (map (keyed_term fn vs value) ks) seen = ks.
Proof.
  induction ks as [|k ks IH]; intros seen Hd Hs; [ reflexivity | ].
  cbn [map]. unfold keyed_term at 1. cbn [distinct_keys shifts].
  replace (existsb (fun k' => key_eqb k' k) seen) with false.
  - f_equal. destruct Hd as [H1 H2]. apply IH; [ exact H2 | ].
    intros s k' Hin Hk'. apply in_app_or in Hin as [Hin | [<- | []]].
    + apply Hs; [ exact Hin | now right ].
    + now apply H1.
  - symmetry. apply not_true_is_false. intros E.
    apply existsb_exists in E as (s & Hin & E).
    rewrite (Hs s k Hin (or_introl eq_refl)) in E. discriminate.
Qed.

End Renormalise.

Lemma group_fold_constants (k : key) (cs : list Term) (v0 : float) :
  (forall t, In t cs -> exists c, t = ConstantTerm c) ->
  group_fold k cs v0 = v0.
Proof.
  revert v0. induction cs as [|t cs IH]; intros v0 H; [ reflexivity | ].
  rewrite group_fold_cons.
  destruct (H t (or_introl eq_refl)) as [c ->].
  apply IH. intros t' Ht'. apply H. now right.
Qed.

Lemma group_fold_app (k : key) (a b : list Term) (v0 : float) :
  group_fold k (a ++ b) v0 = group_fold k b (group_fold k a v0).
Proof. unfold group_fold. apply fold_left_app. Qed.

(** X11.  Normalising is idempotent: what [_combine_terms] returns for
    terms with one shift per variable and no NaN shift is returned unchanged
    when it is normalised again over the same signature. *)
Theorem combine_terms_idempotent (raw nf : list Term) (vs : list str) (fn : str) :
  Forall (well_shifted vs) raw ->
  _combine_terms raw vs fn = Ok nf ->
  _combine_terms nf vs fn = Ok nf.
Proof.
  intros Hraw H. rewrite (combine_terms_spec fn Hraw) in H. injection H as <-.
  set (value := fun k => group_total k raw).
  set (ks := filter (fun k => not_below_eps (value k)) (distinct_keys raw [])).
  assert (Hnf : normal_form not_below_eps raw vs fn =
                constant_part raw ++
                map (keyed_term fn vs value) ks)
    by reflexivity.
  assert (Hks : forall k, In k ks ->
                  not_below_eps (value k) = true /\
                  List.length k = List.length vs /\ valid_key k = true).
  { intros k Hk. apply filter_In in Hk as [Hk Hkeep]. split; [ exact Hkeep | ].
    destruct (distinct_keys_in _ _ _ Hk) as (f & Hf & ->).
    rewrite Forall_forall in Hraw. exact (Hraw _ Hf). }
  assert (Hd : distinct ks) by apply distinct_filter, distinct_keys_distinct.
  assert (Hconst : forall t, In t (constant_part raw) -> exists c, t = ConstantTerm c).
  { intros t Ht. unfold constant_part in Ht.
    destruct (eps12 <? _)%b64; [ destruct Ht as [<- | []]; eauto | destruct Ht ]. }
  rewrite Hnf.
  rewrite combine_terms_spec.
  2:{ apply Forall_app. split.
      - apply Forall_forall. intros t Ht. destruct (Hconst t Ht) as [c ->]. exact I.
      - apply Forall_forall. intros t Ht.
        apply in_map_iff in Ht as (k & <- & Hk). exact (proj2 (Hks k Hk)). }
  f_equal. unfold normal_form. f_equal.
  - (* the constant *)
    unfold constant_part at 1. rewrite constant_total_keyed.
    unfold constant_part, constant_total.
    destruct (eps12 <? fabs (fold_left _ raw f0))%b64 eqn:E.
    + cbn [fold_left]. rewrite (fadd_zero_exceeds _ E), E. reflexivity.
    + reflexivity.
  - (* the function terms *)
    assert (Hkeys : distinct_keys
                      (constant_part raw ++
                       map (keyed_term fn vs value) ks)
                      [] = ks).
    { assert (Hskip : forall cs rest seen,
                 (forall t, In t cs -> exists c, t = ConstantTerm c) ->
                 distinct_keys (cs ++ rest) seen = distinct_keys rest seen).
      { induction cs as [|t cs IHc]; intros rest seen Hc; [ reflexivity | ].
        destruct (Hc t (or_introl eq_refl)) as [c ->]. cbn [app distinct_keys].
        apply IHc. intros t' Ht'. apply Hc. now right. }
      rewrite (Hskip _ _ _ Hconst).
      apply distinct_keys_of_distinct; [ exact Hd | intros s k [] ]. }
    rewrite Hkeys.
    assert (Hval : forall k, In k ks ->
               group_total k
                 (constant_part raw ++
                  map (keyed_term fn vs value) ks)
               = value k).
    { intros k Hk. unfold group_total. rewrite group_fold_app.
      rewrite (group_fold_constants _ _ _ Hconst).
      rewrite (group_fold_one fn vs value k ks f0 Hd Hk (proj2 (proj2 (Hks k Hk)))).
      apply fadd_zero_kept. exact (proj1 (Hks k Hk)). }
    rewrite (filter_ext_in _ (fun _ => true)).
    2:{ intros k Hk. rewrite (Hval k Hk). exact (proj1 (Hks k Hk)). }
    replace (filter (fun _ => true) ks) with ks
      by (clear; induction ks as [|k ks' IH]; [ reflexivity | cbn [filter]; now rewrite <- IH ]).
    apply map_ext_in. intros k Hk. now rewrite (Hval k Hk).
Qed.

Lemma combine_terms_idempotent_witness :
  _combine_terms (rhs mixed_rec) [lit "n"] (lit "T") = Ok (rhs mixed_rec).
Proof.
  refine (@combine_terms_idempotent mixed_terms _ [lit "n"] (lit "T") _ _).
  - repeat constructor.
  - vm_compute. reflexivity.
Defined.

(** ** formatter.py: the exceptions of [format_asymptotics] *)

(** With the default five digits, [format_number] raises nothing but
    [OverflowError] (from [math.ceil] of an overflowed product). *)
Lemma format_number_raises (x : float) (e : exn) :
  format_number x 5 = Raise e -> e = OverflowError.
Proof.
  unfold format_number.
  destruct (isfinite x) eqn:Ex; cbn [negb]; [ | discriminate ].
  assert (Hn : isnan (x * of_int (10 ^ Z.of_nat 5))%b64 = false)
    by (apply fmul_finite_not_nan; [ exact Ex | reflexivity ]).
  unfold math_ceil.
  destruct (x * of_int (10 ^ Z.of_nat 5))%b64 as [s|s| |s m ex] eqn:Ep;
    try discriminate.
  - cbn [bind]. congruence.
  - cbn [exact bind].
    destruct (0 <=? ex)%Z; cbn [bind];
      (destruct (isinf _); [ congruence | discriminate ]).
Qed.

(** X12.  [format_asymptotics] raises [ValueError] exactly when the
    recurrence does not have one variable, whatever the root (a NaN, an
    infinity and the sentinel included). *)
Theorem format_asymptotics_ValueError_iff (rec : Recurrence) (root : Root) :
  format_asymptotics rec root = Raise ValueError <->
  List.length (vars (lhs rec)) <> 1.
Proof.
  unfold format_asymptotics.
  destruct (vars (lhs rec)) as [|v [|v' vs]]; cbn [List.length].
  - split; [ intros _; discriminate | reflexivity ].
  - split; [ | intros H; now contradiction H ].
    destruct (isinf root); [ discriminate | ].
    destruct (root == f1)%b64; [ discriminate | ].
    destruct (format_number root 5) as [base|e] eqn:E; cbn [bind];
      [ discriminate | ].
    rewrite (format_number_raises _ E). discriminate.
  - split; [ intros _; discriminate | reflexivity ].
Qed.

(** ** parser.py: identifiers *)

Lemma span_spec (p : N -> bool) (s : str) :
  forall a b, span p s = (a, b) ->
    s = a ++ b /\ forallb p a = true /\
    match b with [] => True | x :: _ => p x = false end.
Proof.
  induction s as [|x s IH]; intros a b H; cbn [span] in H.
  - injection H as <- <-. repeat split.
  - destruct (p x) eqn:Ex.
    + destruct (span p s) as [a' b'] eqn:Es. injection H as <- <-.
      destruct (IH _ _ eq_refl) as (-> & H2 & H3).
      cbn [app forallb]. rewrite Ex, H2. repeat split. exact H3.
    + injection H as <- <-. repeat split. exact Ex.
Qed.

Lemma span_all (p : N -> bool) (a b : str) :
  forallb p a = true ->
  match b with [] => True | x :: _ => p x = false end ->
  span p (a ++ b) = (a, b).
Proof.
  induction a as [|x a IH]; intros Ha Hb.
  - destruct b as [|y b]; [ reflexivity | ]. cbn [app span]. now rewrite Hb.
  - cbn [forallb] in Ha. apply andb_prop in Ha as [Hx Ha].
    cbn [app span]. now rewrite Hx, (IH Ha Hb).
Qed.

Section Identifiers.
Context {U : Unicode}.

Lemma newline_not_ident_char : ident_char 10 = false.
Proof. reflexivity. Qed.

(** X13.  [is_valid_identifier] accepts exactly a letter followed by
    letters, numbers, [_], [{] and [}], and the same followed by one final
    newline (what the [$] of the pattern lets through). *)
Theorem valid_identifier_iff (name : str) :
  is_valid_identifier name = true <->
  exists c body,
    is_L c = true /\ forallb ident_char body = true /\
    (name = c :: body \/ name = c :: body ++ [10%N]).
Proof.
  split.
  - destruct name as [|c rest]; [ discriminate | ].
    cbn [is_valid_identifier]. intros H. apply andb_prop in H as [Hc H].
    destruct (span ident_char rest) as [body tail] eqn:Es.
    destruct (span_spec _ _ Es) as (-> & Hb & _).
    exists c, body. repeat split; try assumption.
    destruct tail as [|x [|y tail]]; cbn [at_end] in H; try discriminate.
    + left. now rewrite app_nil_r.
    + right. apply N.eqb_eq in H. now subst x.
  - intros (c & body & Hc & Hb & [-> | ->]); cbn [is_valid_identifier];
      rewrite Hc; cbn [andb].
    + rewrite <- (app_nil_r body) at 1. now rewrite (span_all _ body [] Hb I).
    + now rewrite (span_all _ body [10%N] Hb newline_not_ident_char).
Qed.

End Identifiers.

(** ** End to end: the Fibonacci recurrence *)

(** The nearest integer, when the fraction is not half-way. *)
Lemma round_half_even_nearest (n : Z) (d : positive) (k : Z) :
  ((2 * k - 1) * Zpos d < 2 * n < (2 * k + 1) * Zpos d)%Z ->
  round_half_even n d = k.
Proof.
  intros [H1 H2]. unfold round_half_even.
  pose proof (Z.div_mod n (Zpos d) ltac:(discriminate)) as Hdm.
  pose proof (Z.mod_pos_bound n (Zpos d) ltac:(reflexivity)) as Hr.
  set (q := (n / Zpos d)%Z) in *. set (r := (n mod Zpos d)%Z) in *.
  destruct (Z.compare_spec (2 * r) (Zpos d)) as [E | E | E]; try nia.
  destruct (Z.even q); nia.
Qed.

Lemma exact_isfinite (x : float) (n : Z) (d : positive) :
  exact x = Some (n, d) -> isfinite x = true.
Proof. destruct x; try discriminate; reflexivity. Qed.

Lemma parse_fib (U : Unicode) :
  parse_recurrence (lit "T(n) = T(n-1) + T(n-2)") = Ok fib_rec.
Proof. vm_compute. reflexivity. Qed.

Section Fibonacci.
Context {U : Unicode} {NP : Numerics} {SP : SciPy} {L : NumericsLaws NP}.

(** X14.  End to end on [T(n) = T(n-1) + T(n-2)]: whatever bracket the
    search finds, if the bracketed root finder converges to a root whose
    exact value lies strictly between 1.6180335 and 1.6180345 (the golden
    ratio is 1.6180339887...), then [solve_recurrence] returns exactly the
    double 1.618034, the root rounded to six decimals, and
    [format_asymptotics] renders it, rounded up at five decimals, as
    [O(1.61804^n)]. *)
Theorem fibonacci_end_to_end (b root : float) (n : Z) (d : positive) :
  upper_bracket (g_rec [f1; f1] [f1; f2]) 50 f2 = Some b ->
  root_scalar_brentq (g_rec [f1; f1] [f1; f2]) f1 b = Some (true, root) ->
  exact root = Some (n, d) ->
  (16180335 * Zpos d < 10000000 * n < 16180345 * Zpos d)%Z ->
  exists rec,
    parse_recurrence (lit "T(n) = T(n-1) + T(n-2)") = Ok rec /\
    solve_recurrence rec = Ok f1_618034 /\
    format_asymptotics rec f1_618034 = Ok (lit "O(1.61804^n)").
Proof.
  intros Hb Hr Hx Hrange. exists fib_rec.
  split; [ apply parse_fib | ]. split; [ | vm_compute; reflexivity ].
  rewrite (solve_recurrence_unfold fib_rec (deltas := [f1; f2]));
    [ | reflexivity | discriminate | reflexivity ].
  change (existsb (fun d0 => d0 <=? f0)%b64 [f1; f2]) with false. cbv iota.
  change (map coef (function_terms (rhs fib_rec))) with [f1; f1].
  rewrite g_rec_at_one by reflexivity.
  cbn [map]. rewrite np_sum_pair by reflexivity.
  change (fabs (f1 * f1 + f1 * f1 - f1) <? eps12)%b64 with false.
  change (f1 * f1 + f1 * f1 - f1 <? f0)%b64 with false. cbv iota.
  rewrite Hb, Hr. unfold snap_int.
  rewrite (exact_isfinite _ Hx). cbn [negb]. unfold py_round. rewrite Hx.
  rewrite (@round_half_even_nearest (n * 10 ^ 6) d 1618034) by lia.
  vm_compute. reflexivity.
Qed.

End Fibonacci.

Lemma fib_bracket_reference :
  @upper_bracket (@g_rec Reference.numerics [f1; f1] [f1; f2]) 50 f2 = Some f2.
Proof. vm_compute. reflexivity. Qed.

Lemma fib_root_reference :
  @root_scalar_brentq Reference.scipy
    (@g_rec Reference.numerics [f1; f1] [f1; f2]) f1 f2 = Some (true, fib_root).
Proof. vm_compute. reflexivity. Qed.

Lemma fibonacci_end_to_end_witness :
  exists rec,
    @parse_recurrence Reference.basic_latin (lit "T(n) = T(n-1) + T(n-2)") = Ok rec /\
    @solve_recurrence Reference.numerics Reference.scipy rec = Ok f1_618034 /\
    format_asymptotics rec f1_618034 = Ok (lit "O(1.61804^n)").
Proof.
  refine (@fibonacci_end_to_end Reference.basic_latin Reference.numerics
            Reference.scipy reference_laws f2 fib_root
            7286977268806824 4503599627370496
            fib_bracket_reference fib_root_reference _ _).
  - reflexivity.
  - lia.
Defined.

(** ** parser.py: nothing may follow a closing parenthesis *)

Lemma adjacent_app_cons (x y z : N) (l1 l2 : str) :
  adjacent x y (l1 ++ z :: l2) -> x <> z -> y <> z ->
  adjacent x y l1 \/ adjacent x y l2.
Proof.
  revert l2. induction l1 as [|h l1 IH]; intros l2 (a & b & E) Hx Hy.
  - cbn [app] in E. destruct a as [|h' a]; cbn [app] in E.
    + injection E as E1 _. congruence.
    + injection E as _ E. right. now exists a, b.
  - cbn [app] in E. destruct a as [|h' a]; cbn [app] in E.
    + injection E as <- E. destruct l1 as [|h2 l1]; cbn [app] in E.
      * injection E as E1 _. congruence.
      * injection E as <- E. left. now exists [], l1.
    + injection E as <- E. destruct (IH l2) as [(a' & b' & ->) | H]; auto.
      * now exists a, b.
      * left. now exists (h :: a'), b'.
Qed.

Lemma adjacent_cons (x y h : N) (l : str) :
  adjacent x y l -> adjacent x y (h :: l).
Proof. intros (a & b & ->). now exists (h :: a), b. Qed.

Lemma adjacent_in_l (x y : N) (s : str) : adjacent x y s -> In x s.
Proof. intros (a & b & ->). apply in_or_app. right. now left. Qed.

Lemma adjacent_in_r (x y : N) (s : str) : adjacent x y s -> In y s.
Proof. intros (a & b & ->). apply in_or_app. right. right. now left. Qed.

(** After the first [x] of a string nothing follows [x] unless the rest
    is non-empty. *)
Lemma adjacent_after_first (x y : N) (u v : str) :
  ~ In x u -> adjacent x y (u ++ x :: v) -> In y v.
Proof.
  induction u as [|h u IH]; intros Hu (a & b & E); cbn [app] in E.
  - destruct a as [|h' a]; cbn [app] in E.
    + injection E as ->. now left.
    + injection E as _ ->. apply in_or_app. right. right. now left.
  - destruct a as [|h' a]; cbn [app] in E.
    + injection E as <- _. contradiction Hu. now left.
    + injection E as _ E. apply IH.
      * intros H. apply Hu. now right.
      * now exists a, b.
Qed.

Lemma split_not_nil (c : N) (t : str) : split c t <> [].
Proof.
  destruct t as [|k t]; cbn [split]; [ discriminate | ].
  destruct (N.eqb k c); [ discriminate | ].
  destruct (split c t); discriminate.
Qed.

Lemma split_one (c : N) (t : str) :
  forall y, split c t = [y] -> t = y.
Proof.
  induction t as [|k t IHt]; intros y H; cbn [split] in H.
  - now injection H as <-.
  - destruct (N.eqb k c).
    + injection H as _ H. now apply split_not_nil in H.
    + destruct (split c t) as [|p ps] eqn:Et.
      * now apply split_not_nil in Et.
      * injection H as <- ->. f_equal. now apply IHt.
Qed.

Lemma split_join (c : N) (s : str) :
  forall x y, split c s = [x; y] -> s = x ++ c :: y.
Proof.
  induction s as [|h s IH]; intros x y H; cbn [split] in H; [ discriminate | ].
  destruct (N.eqb_spec h c) as [-> | Hne].
  - injection H as <- H. cbn [app]. f_equal. now apply split_one with (c := c).
  - destruct (split c s) as [|p ps] eqn:Es; [ discriminate | ].
    injection H as <- ->. cbn [app]. f_equal. now apply IH.
Qed.

Lemma in_split_rhs_out (s : str) :
  forall depth buf out p, In p out -> In p (split_rhs_loop s depth buf out).
Proof.
  induction s as [|ch s IH]; intros depth buf out p Hp; cbn [split_rhs_loop].
  - destruct buf; [ exact Hp | apply in_or_app; now left ].
  - destruct (N.eqb ch 40); [ now apply IH | ].
    destruct (N.eqb ch 41); [ now apply IH | ].
    destruct (N.eqb ch 43 && Nat.eqb depth 0); [ | now apply IH ].
    apply IH. destruct buf; [ exact Hp | apply in_or_app; now left ].
Qed.

(** Two neighbours, neither a plus sign, stay neighbours in one piece. *)
Lemma split_rhs_keeps_adjacent (x y : N) (s : str) :
  x <> 43%N -> y <> 43%N ->
  forall depth buf out,
    adjacent x y (buf ++ s) ->
    exists p, In p (split_rhs_loop s depth buf out) /\ adjacent x y p.
Proof.
  intros Hx Hy. induction s as [|ch s IH]; intros depth buf out H;
    cbn [split_rhs_loop].
  - rewrite app_nil_r in H. exists buf. split; [ | exact H ].
    destruct buf as [|b0 buf]; [ destruct H as ([|] & ? & ?); discriminate | ].
    apply in_or_app. right. now left.
  - assert (Hkeep : adjacent x y ((buf ++ [ch]) ++ s))
      by (now rewrite <- app_assoc).
    destruct (N.eqb ch 40); [ now apply IH | ].
    destruct (N.eqb ch 41); [ now apply IH | ].
    destruct (N.eqb_spec ch 43) as [-> | Hne]; cbn [andb]; [ | now apply IH ].
    destruct (Nat.eqb depth 0); [ | now apply IH ].
    destruct (adjacent_app_cons _ _ H Hx Hy) as [Hb | Hs].
    + exists buf. split; [ | exact Hb ].
      apply in_split_rhs_out.
      destruct buf as [|b0 buf]; [ destruct Hb as ([|] & ? & ?); discriminate | ].
      apply in_or_app. right. now left.
    + apply IH. exact Hs.
Qed.

(** The characters of the pieces are characters of the string. *)
Lemma split_rhs_chars (s : str) :
  forall depth buf out p ch,
    In p (split_rhs_loop s depth buf out) -> In ch p ->
    In ch (buf ++ s) \/ exists q, In q out /\ In ch q.
Proof.
  induction s as [|c s IH]; intros depth buf out p ch Hp Hch;
    cbn [split_rhs_loop] in Hp.
  - rewrite app_nil_r. destruct buf as [|b0 buf]; [ right; eauto | ].
    apply in_app_or in Hp as [Hp | [<- | []]]; [ right; eauto | now left ].
  - assert (Hstep : forall d,
               In p (split_rhs_loop s d (buf ++ [c]) out) ->
               In ch (buf ++ c :: s) \/ exists q, In q out /\ In ch q).
    { intros d Hd. destruct (IH _ _ _ _ _ Hd Hch) as [H | H]; [ left | now right ].
      now rewrite <- app_assoc in H. }
    destruct (N.eqb c 40); [ now apply (Hstep (S depth)) | ].
    destruct (N.eqb c 41); [ now apply (Hstep (Nat.pred depth)) | ].
    destruct (N.eqb c 43 && Nat.eqb depth 0); [ | now apply (Hstep depth) ].
    destruct (IH _ _ _ _ _ Hp Hch) as [H | (q & Hq & Hc)].
    + left. apply in_or_app. right. now right.
    + destruct buf as [|b0 buf]; [ right; eauto | ].
      apply in_app_or in Hq as [Hq | [<- | []]]; [ right; eauto | left ].
      apply in_or_app. now left.
Qed.

Lemma forallb_not_in (p : N -> bool) (x : N) (a : str) :
  forallb p a = true -> p x = false -> ~ In x a.
Proof.
  intros Ha Hx Hin. rewrite forallb_forall in Ha.
  specialize (Ha _ Hin). congruence.
Qed.

Lemma span_not (x : N) (s a b : str) :
  span (fun c => negb (N.eqb c x)) s = (a, b) -> s = a ++ b /\ ~ In x a.
Proof.
  intros H. destruct (span_spec _ _ H) as (-> & Ha & _). split; [ reflexivity | ].
  apply (@forallb_not_in _ x a Ha). now rewrite N.eqb_refl.
Qed.

Lemma at_end_inv (t : str) (c : N) : at_end t = true -> In c t -> t = [10%N].
Proof.
  destruct t as [|x [|y t]]; cbn [at_end]; intros H Hin;
    [ destruct Hin | | discriminate ].
  apply N.eqb_eq in H. now subst x.
Qed.

Section NothingAfterParenthesis.
Context {U : Unicode}.

Lemma strip_clean (s : str) :
  (forall c, In c s -> isspace c = false) -> strip s = s.
Proof.
  intros H.
  assert (L : forall t, (forall c, In c t -> isspace c = false) ->
                        lstrip_by isspace t = t).
  { intros [|x t] Ht; cbn [lstrip_by]; [ reflexivity | ].
    now rewrite (Ht x (or_introl eq_refl)). }
  unfold strip. rewrite (L s H), L, rev_involutive; [ reflexivity | ].
  intros c Hc. apply H. now apply in_rev.
Qed.

Lemma unsigned_prefix_chars (neg : bool) (s : str) (n : number) (rest : str) :
  unsigned_prefix neg s = Some (n, rest) ->
  exists pre, s = pre ++ rest /\ ~ In 41%N pre.
Proof.
  unfold unsigned_prefix. destruct (span is_d s) as [ip r] eqn:Es.
  destruct (span_spec _ _ Es) as (-> & Hip & _).
  assert (Nip : ~ In 41%N ip) by (now apply (@forallb_not_in _ 41%N _ Hip)).
  intros H. destruct ip as [|d ip]; [ discriminate | ].
  assert (Plain : Some (mkNumber neg (d :: ip) [], r) = Some (n, rest) ->
                  exists pre, (d :: ip) ++ r = pre ++ rest /\ ~ In 41%N pre).
  { intros E. injection E as _ <-. now exists (d :: ip). }
  destruct r as [|x r1]; [ now apply Plain | ].
  destruct (N.eqb_spec x 46) as [-> | Hne].
  - destruct (span is_d r1) as [fp r2] eqn:Ef.
    destruct (span_spec _ _ Ef) as (-> & Hfp & _).
    destruct fp as [|e fp]; [ now apply Plain | ].
    injection H as _ <-. exists ((d :: ip) ++ 46%N :: e :: fp). split.
    + now rewrite <- app_assoc.
    + intros Hin. apply in_app_or in Hin as [Hin | [Hin | Hin]].
      * now apply Nip.
      * discriminate.
      * now apply (@forallb_not_in _ 41%N _ Hfp) in Hin.
  - apply Plain. clear Plain.
    destruct x as [|p]; [ exact H | ].
    do 6 (try destruct p as [p|p|]); try exact H. now contradiction Hne.
Qed.

Lemma number_prefix_chars (s : str) (n : number) (rest : str) :
  number_prefix s = Some (n, rest) ->
  exists pre, s = pre ++ rest /\ ~ In 41%N pre.
Proof.
  intros H.
  assert (Plain : unsigned_prefix false s = Some (n, rest) ->
                  exists pre, s = pre ++ rest /\ ~ In 41%N pre)
    by apply unsigned_prefix_chars.
  destruct s as [|x s']; [ now apply Plain | ].
  destruct (N.eqb_spec x 45) as [-> | Hne].
  - cbn [number_prefix] in H.
    destruct (unsigned_prefix_chars _ _ H) as (pre & -> & Hpre).
    exists (45%N :: pre). split; [ reflexivity | ].
    intros [Hin | Hin]; [ discriminate | now apply Hpre ].
  - apply Plain. clear Plain.
    destruct x as [|p]; [ exact H | ].
    do 6 (try destruct p as [p|p|]); try exact H. now contradiction Hne.
Qed.

Lemma match_number_chars (s : str) (n : number) :
  match_number s = Some n -> ~ In 41%N s.
Proof.
  unfold match_number.
  destruct (number_prefix s) as [[m rest]|] eqn:E; [ | discriminate ].
  destruct (number_prefix_chars _ E) as (pre & -> & Hpre).
  destruct (at_end rest) eqn:Er; [ | discriminate ]. intros _ Hin.
  apply in_app_or in Hin as [Hin | Hin]; [ now apply Hpre | ].
  rewrite (@at_end_inv _ _ Er Hin) in Hin. destruct Hin as [Hin | []].
  discriminate.
Qed.

Lemma letter_not_paren (c : N) : is_L c = true -> c <> 41%N.
Proof. intros H ->. discriminate. Qed.

Lemma valid_identifier_chars (name : str) :
  is_valid_identifier name = true -> ~ In 41%N name.
Proof.
  destruct name as [|c rest]; [ discriminate | ].
  cbn [is_valid_identifier]. intros H. apply andb_prop in H as [Hc H].
  destruct (span ident_char rest) as [body tail] eqn:Es.
  destruct (span_spec _ _ Es) as (-> & Hb & _).
  intros [Hin | Hin]; [ now apply (letter_not_paren Hc) | ].
  apply in_app_or in Hin as [Hin | Hin].
  - now apply (@forallb_not_in _ 41%N _ Hb) in Hin.
  - rewrite (@at_end_inv _ _ H Hin) in Hin. destruct Hin as [Hin | []].
    discriminate.
Qed.

(** What [match_call] accepts ends at its first closing parenthesis. *)
Lemma match_call_shape (s fn args : str) :
  match_call s = Some (fn, args) -> ~ In 41%N fn ->
  exists pre tail, s = pre ++ 41%N :: tail /\ ~ In 41%N pre /\ at_end tail = true.
Proof.
  unfold match_call.
  destruct (span _ s) as [name r] eqn:Es.
  destruct (span_spec _ _ Es) as (-> & _ & Hr).
  destruct name as [|n0 name]; [ discriminate | ].
  destruct r as [|x r1]; [ discriminate | ].
  destruct (span _ r1) as [a r2] eqn:Ea.
  destruct (span_spec _ _ Ea) as (-> & Ha & Hr2).
  destruct r2 as [|y tail]; [ discriminate | ].
  destruct (at_end tail) eqn:Et; [ | discriminate ].
  intros H Hfn. injection H as <- <-.
  apply Bool.negb_false_iff, N.eqb_eq in Hr. subst x.
  apply Bool.negb_false_iff, N.eqb_eq in Hr2. subst y.
  exists ((n0 :: name) ++ 40%N :: a), tail. repeat split.
  - now rewrite <- app_assoc.
  - intros Hin. apply in_app_or in Hin as [Hin | [Hin | Hin]].
    + now apply Hfn.
    + discriminate.
    + apply (@forallb_not_in _ 41%N _ Ha) in Hin; [ exact Hin | ].
      now rewrite N.eqb_refl.
  - exact Et.
Qed.

(** So does what [match_term] accepts. *)
Lemma match_term_shape (s : str) (coef : option number) (fn args : str) :
  match_term s = Some (coef, fn, args) ->
  exists pre tail, s = pre ++ 41%N :: tail /\ ~ In 41%N pre /\ at_end tail = true.
Proof.
  unfold match_term.
  assert (Hpre : exists pre0,
             s = pre0 ++ snd (match number_prefix s with
                              | Some (n, r) =>
                                  (Some n, match r with 42%N :: r' => r' | _ => r end)
                              | None => (None, s)
                              end) /\ ~ In 41%N pre0).
  { destruct (number_prefix s) as [[n r]|] eqn:E; cbn [snd].
    - destruct (number_prefix_chars _ E) as (pre & -> & Hpre).
      destruct r as [|x r']; [ now exists pre | ].
      destruct (N.eqb_spec x 42) as [-> | Hne].
      + exists (pre ++ [42%N]). split; [ now rewrite <- app_assoc | ].
        intros Hin. apply in_app_or in Hin as [Hin | [Hin | []]];
          [ now apply Hpre | discriminate ].
      + exists pre. split; [ | exact Hpre ]. f_equal.
        destruct x as [|p]; [ reflexivity | ].
        do 6 (try destruct p as [p|p|]); try reflexivity. now contradiction Hne.
    - now exists []. }
  destruct (match number_prefix s with Some _ => _ | None => _ end) as [cf r].
  cbn [snd] in Hpre. destruct Hpre as (pre0 & -> & Hpre0).
  destruct r as [|c r1]; [ discriminate | ].
  destruct (is_L c) eqn:Ec; [ | discriminate ].
  destruct (span ident_char r1) as [body r2] eqn:Eb.
  destruct (span_spec _ _ Eb) as (-> & Hb & _).
  destruct r2 as [|x r3]; [ discriminate | ].
  destruct (N.eqb_spec x 40) as [-> | Hne].
  - destruct (span _ r3) as [a r4] eqn:Ea.
    destruct (span_spec _ _ Ea) as (-> & Ha & Hr4).
    destruct r4 as [|y tail]; [ discriminate | ].
    destruct (at_end tail) eqn:Et; [ | discriminate ]. intros _.
    apply Bool.negb_false_iff, N.eqb_eq in Hr4. subst y.
    exists (pre0 ++ c :: body ++ 40%N :: a), tail. repeat split.
    + rewrite <- app_assoc. cbn [app]. now rewrite <- app_assoc.
    + intros Hin. apply in_app_or in Hin as [Hin | [Hin | Hin]].
      * now apply Hpre0.
      * now apply (letter_not_paren Ec).
      * apply in_app_or in Hin as [Hin | [Hin | Hin]].
        -- now apply (@forallb_not_in _ 41%N _ Hb) in Hin.
        -- discriminate.
        -- apply (@forallb_not_in _ 41%N _ Ha) in Hin; [ exact Hin | ].
           now rewrite N.eqb_refl.
    + exact Et.
  - intros H. exfalso.
    destruct x as [|p]; [ discriminate | ].
    do 6 (try destruct p as [p|p|]); try discriminate. now contradiction Hne.
Qed.

(** A string that ends at its first closing parenthesis and has no
    newline has nothing after a closing parenthesis. *)
Lemma nothing_after_first (pre tail : str) (c : N) :
  ~ In 41%N pre -> at_end tail = true ->
  adjacent 41 c (pre ++ 41%N :: tail) -> In 10%N (pre ++ 41%N :: tail).
Proof.
  intros Hpre Ht Hadj. pose proof (@adjacent_after_first _ _ _ _ Hpre Hadj) as Hin.
  rewrite (@at_end_inv _ _ Ht Hin). apply in_or_app. right. right. now left.
Qed.

Lemma mapM_Ok_In {A B : Type} (f : A -> result B) (x : A) :
  forall xs ys, mapM f xs = Ok ys -> In x xs -> exists y, f x = Ok y.
Proof.
  induction xs as [|x0 xs IH]; intros ys H Hin; [ destruct Hin | ].
  cbn [mapM] in H.
  destruct (f x0) as [y|e] eqn:E; cbn [bind] in H; [ | discriminate ].
  destruct (mapM f xs) as [ys'|e] eqn:E'; cbn [bind] in H; [ | discriminate ].
  destruct Hin as [<- | Hin]; eauto.
Qed.

Lemma parse_term_no_follow (summand fn : str) (vs : list str) (t : Term) (c : N) :
  _parse_term summand fn vs = Ok t -> ~ In 10%N summand ->
  ~ adjacent 41 c summand.
Proof.
  unfold _parse_term. intros H Hnl Hadj.
  destruct (match_number summand) as [n|] eqn:En.
  - exact (@match_number_chars _ _ En (@adjacent_in_l _ _ _ Hadj)).
  - destruct (match_term summand) as [[[cf name] a]|] eqn:Et; [ | discriminate ].
    destruct (@match_term_shape _ _ _ _ Et) as (pre & tail & -> & Hpre & Htail).
    exact (Hnl (@nothing_after_first _ _ _ Hpre Htail Hadj)).
Qed.

End NothingAfterParenthesis.

Section BinaryMinus.
Context {U : Unicode}.

Lemma parse_raw_no_follow (text : str) (l : FunctionTerm) (raw : list Term)
    (c : N) :
  parse_raw text = Ok (l, raw) -> c <> 43%N -> c <> 61%N ->
  ~ adjacent 41 c (filter (fun x => negb (isspace x)) text).
Proof.
  unfold parse_raw. intros H Hplus Heq Hadj.
  assert (Hclean : forall ch,
             In ch (filter (fun x => negb (isspace x)) text) ->
             isspace ch = false).
  { intros ch Hin. apply filter_In in Hin as [_ Hin].
    now apply Bool.negb_true_iff. }
  assert (Hnl : forall s, (forall ch, In ch s -> isspace ch = false) ->
                          ~ In 10%N s).
  { intros s Hs Hin. specialize (Hs _ Hin). discriminate. }
  destruct (filter _ text) as [|c0 cl]; [ discriminate | ].
  destruct (split 61 _) as [|lhs_str [|rhs_str [|]]] eqn:Esp; try discriminate.
  apply split_join in Esp. rewrite Esp in Hadj, Hclean. clear Esp.
  destruct (negb (nonempty lhs_str)); [ discriminate | ].
  destruct (negb (nonempty rhs_str)); [ discriminate | ].
  destruct (match_call lhs_str) as [[fn raw_args_str]|] eqn:Emc;
    [ | discriminate ].
  destruct (is_valid_identifier fn) eqn:Efn; cbn [negb] in H; [ | discriminate ].
  apply adjacent_app_cons in Hadj as [Hadj | Hadj];
    [ | | discriminate | exact Heq ].
  - destruct (@match_call_shape _ _ _ Emc (@valid_identifier_chars _ _ Efn))
      as (pre & tail & -> & Hpre & Htail).
    apply (Hnl (pre ++ 41%N :: tail)).
    + intros ch Hin. apply Hclean, in_or_app. now left.
    + exact (@nothing_after_first _ _ _ Hpre Htail Hadj).
  - assert (Hrhs : forall ch, In ch rhs_str -> isspace ch = false).
    { intros ch Hin. apply Hclean, in_or_app. right. now right. }
    destruct (@split_rhs_keeps_adjacent 41%N c rhs_str ltac:(discriminate)
                Hplus 0%nat [] [] Hadj) as (p & Hp & Hpadj).
    fold (_split_rhs rhs_str) in Hp.
    assert (Hpc : forall ch, In ch p -> isspace ch = false).
    { intros ch Hin. apply Hrhs.
      destruct (@split_rhs_chars rhs_str 0%nat [] [] p ch Hp Hin)
        as [Hin' | (q & [] & _)]. exact Hin'. }
    assert (Hsum : In p (filter nonempty (map strip (_split_rhs rhs_str)))).
    { apply filter_In. split.
      - apply in_map_iff. exists p. split; [ now apply strip_clean | exact Hp ].
      - destruct Hpadj as ([|] & ? & ->); reflexivity. }
    destruct (filter nonempty (map strip (split 44 raw_args_str)))
      as [|a0 args]; [ discriminate | ].
    destruct (check_vars (a0 :: args) []) as [vs|e]; cbn [bind] in H;
      [ | discriminate ].
    destruct (FunctionTerm_init f1 fn vs _) as [lhs|e]; cbn [bind] in H;
      [ | discriminate ].
    destruct (filter nonempty (map strip (_split_rhs rhs_str))) as [|s0 ss];
      [ destruct Hsum | ].
    assert (Hall : forall ys,
               mapM (fun s => _parse_term s fn vs) (s0 :: ss) = Ok ys -> False).
    { intros ys Hm. destruct (@mapM_Ok_In _ _ _ _ _ _ Hm Hsum) as (t & Ht).
      exact (@parse_term_no_follow _ _ _ _ _ c Ht (Hnl p Hpc) Hpadj). }
    destruct ss as [|s1 ss].
    + destruct (match_number s0) as [n|] eqn:En.
      * destruct Hsum as [<- | []].
        exact (@match_number_chars _ _ _ En (@adjacent_in_l _ _ _ Hpadj)).
      * destruct (mapM _ [s0]) as [ys|e] eqn:Em; cbn [bind] in H;
          [ | discriminate ].
        exact (Hall _ eq_refl).
    + destruct (mapM _ (s0 :: s1 :: ss)) as [ys|e] eqn:Em; cbn [bind] in H;
        [ | discriminate ].
      exact (Hall _ eq_refl).
Qed.

(** X15.  The grammar has no binary minus: once whitespace is removed, a
    closing parenthesis may only be followed by a plus sign, by the equals
    sign or by the end of the text.  Any other character directly after a
    closing parenthesis makes [parse_recurrence] raise a [ParseError]; so
    a difference has to be written as the sum of a term with a negative
    coefficient. *)
Theorem nothing_follows_closing_parenthesis (text : str) (c : N) :
  adjacent 41 c (filter (fun x => negb (isspace x)) text) ->
  c <> 43%N -> c <> 61%N ->
  exists why, parse_recurrence text = Raise (ParseError why).
Proof.
  intros Hadj Hplus Heq.
  destruct (parse_raw text) as [[l raw]|e] eqn:Er.
  - exfalso. exact (@parse_raw_no_follow _ _ _ _ Er Hplus Heq Hadj).
  - unfold parse_recurrence. rewrite Er. cbn [bind].
    pose proof (parse_raw_raises _ Er) as P.
    destruct e; try destruct P. eauto.
Qed.

End BinaryMinus.

Lemma nothing_follows_closing_parenthesis_witness :
  exists why,
    @parse_recurrence Reference.basic_latin (lit "T(n) = 2*T(n-1) - T(n-2)")
    = Raise (ParseError why).
Proof.
  refine (@nothing_follows_closing_parenthesis Reference.basic_latin
            (lit "T(n) = 2*T(n-1) - T(n-2)") 45%N _ _ _).
  - exists (lit "T(n)=2*T(n-1"), (lit "T(n-2)"). reflexivity.
  - discriminate.
  - discriminate.
Defined.

(** ** formatter.py and parser.py: a printed difference *)

Lemma starts_with_before (old a R : str) (y : N) :
  ~ In y old -> starts_with old (a ++ y :: R) = true ->
  (List.length old <= List.length a)%nat.
Proof.
  revert a. induction old as [|o old IH]; intros a Hy H; [ apply Nat.le_0_l | ].
  destruct a as [|c a]; cbn [app starts_with] in H.
  - apply andb_prop in H as [H _]. apply N.eqb_eq in H. subst o.
    contradiction Hy. now left.
  - apply andb_prop in H as [_ H]. cbn [List.length]. apply le_n_S.
    apply IH; [ | exact H ]. intros Hin. apply Hy. now right.
Qed.

(** A character that does not occur in [old] separates the replacements
    before it from those after it. *)
Lemma replace_from_past (old new R : str) (y : N) :
  ~ In y old -> old <> [] ->
  forall a k, (k <= List.length a)%nat ->
    exists X, replace_from old new k (a ++ y :: R)
              = X ++ y :: replace_from old new 0 R.
Proof.
  intros Hy Hold. induction a as [|c a IH]; intros k Hk.
  - apply Nat.le_0_r in Hk. subst k. exists []. cbn [app replace_from].
    destruct old as [|o old]; [ contradiction | ]. cbn [starts_with].
    destruct (N.eqb_spec o y) as [-> | _]; [ | reflexivity ].
    contradiction Hy. now left.
  - cbn [app replace_from]. destruct k as [|k].
    + destruct (starts_with old (c :: a ++ y :: R)) eqn:Es.
      * pose proof (@starts_with_before old (c :: a) R y Hy Es) as Hlen.
        destruct (IH (List.length old - 1)%nat) as (X & ->).
        { cbn [List.length] in Hlen. lia. }
        exists (new ++ X). now rewrite <- app_assoc.
      * destruct (IH 0%nat (Nat.le_0_l _)) as (X & ->). now exists (c :: X).
    + cbn [List.length] in Hk. apply le_S_n in Hk.
      destruct (IH k Hk) as (X & ->). now exists X.
Qed.

Lemma mapM_app_inv {A B : Type} (f : A -> result B) (xs ys : list A) :
  forall zs, mapM f (xs ++ ys) = Ok zs ->
    exists zs1 zs2, mapM f xs = Ok zs1 /\ mapM f ys = Ok zs2 /\ zs = zs1 ++ zs2.
Proof.
  induction xs as [|x xs IH]; intros zs H; cbn [app mapM] in *.
  - now exists [], zs.
  - destruct (f x) as [z|e]; cbn [bind] in *; [ | discriminate ].
    destruct (mapM f (xs ++ ys)) as [zs'|e]; cbn [bind] in H; [ | discriminate ].
    injection H as <-. destruct (IH _ eq_refl) as (zs1 & zs2 & -> & -> & ->).
    cbn [bind]. now exists (z :: zs1), zs2.
Qed.

Lemma join_neighbours (sep a b : str) (ps1 ps2 : list str) :
  exists A B, join sep (ps1 ++ a :: b :: ps2) = A ++ a ++ sep ++ b ++ B.
Proof.
  induction ps1 as [|x ps1 (A & B & IH)].
  - exists []. cbn [app join]. destruct ps2 as [|p ps2].
    + exists []. now rewrite app_nil_r.
    + now exists (sep ++ join sep (p :: ps2)).
  - exists (x ++ sep ++ A), B.
    change ((x :: ps1) ++ a :: b :: ps2) with (x :: (ps1 ++ a :: b :: ps2)).
    destruct (ps1 ++ a :: b :: ps2) as [|p rest] eqn:E.
    + destruct ps1; discriminate.
    + cbn [join]. cbn [join] in IH. rewrite IH. now rewrite <- !app_assoc.
Qed.

Section PrintedDifference.
Context {U : Unicode}.

Lemma function_term_ends (t : FunctionTerm) (p : str) :
  _format_function_term t = Ok p -> exists q, p = q ++ [41%N].
Proof.
  unfold _format_function_term.
  destruct (if (coef t == f1)%b64 then _ else _) as [cs|e]; cbn [bind];
    [ | discriminate ].
  destruct (format_args _ _) as [args|e]; cbn [bind]; [ | discriminate ].
  intros H. injection H as <-.
  exists (cs ++ func t ++ lit "(" ++ join (lit ", ") args).
  now rewrite <- !app_assoc.
Qed.

Lemma printed_difference_adjacent (L A q p2 B : str) :
  adjacent 41 45
    (filter (fun x => negb (isspace x))
       (L ++ replace (lit " + -") (lit " - ")
               (A ++ (q ++ [41%N]) ++ lit " + " ++ (45%N :: p2) ++ B))).
Proof.
  unfold replace.
  replace (A ++ (q ++ [41%N]) ++ lit " + " ++ (45%N :: p2) ++ B)
    with ((A ++ q) ++ 41%N :: (lit " + -" ++ p2 ++ B))
    by (now rewrite <- !app_assoc).
  destruct (@replace_from_past (lit " + -") (lit " - ")
              (lit " + -" ++ p2 ++ B) 41%N
              ltac:(cbv; intuition discriminate) ltac:(discriminate)
              (A ++ q) 0%nat (Nat.le_0_l _)) as (X & ->).
  exists (filter (fun x => negb (isspace x)) (L ++ X)).
  exists (filter (fun x => negb (isspace x))
            (32%N :: replace_from (lit " + -") (lit " - ") 3 (lit "+ -" ++ p2 ++ B))).
  rewrite app_assoc, filter_app. f_equal.
Qed.

(** X16.  [format_recurrence] writes a term that is printed with a leading
    minus sign as a difference, and a difference after a function term is
    not in the grammar of [parse_recurrence]: whenever the right-hand side
    has a function term directly followed by such a term, the text that
    [format_recurrence] returns makes [parse_recurrence] raise a
    [ParseError]. *)
Theorem printed_difference_not_reparsed (rec : Recurrence)
    (before after : list Term) (t1 : FunctionTerm) (t2 : Term) (p2 s : str) :
  rhs rec = before ++ FunctionTerm_ t1 :: t2 :: after ->
  format_term t2 = Ok (45%N :: p2) ->
  format_recurrence rec = Ok s ->
  exists why, parse_recurrence s = Raise (ParseError why).
Proof.
  intros Hrhs Ht2 Hfmt.
  assert (Hadj : adjacent 41 45 (filter (fun x => negb (isspace x)) s)).
  { unfold format_recurrence in Hfmt. rewrite Hrhs in Hfmt.
    destruct (before ++ FunctionTerm_ t1 :: t2 :: after) as [|r0 rs] eqn:E;
      [ destruct before; discriminate | ].
    rewrite <- E in Hfmt. clear E.
    destruct (mapM format_term _) as [parts|e] eqn:Em; cbn [bind] in Hfmt;
      [ | discriminate ].
    apply mapM_app_inv in Em as (ps1 & ps' & _ & Em & ->).
    cbn [mapM] in Em.
    change (format_term (FunctionTerm_ t1)) with (_format_function_term t1) in Em.
    rewrite Ht2 in Em.
    destruct (_format_function_term t1) as [p1|e] eqn:E1; cbn [bind] in Em;
      [ | discriminate ].
    destruct (function_term_ends _ E1) as (q & ->).
    destruct (mapM format_term after) as [ps2|e]; cbn [bind] in Em;
      [ | discriminate ].
    injection Em as <-.
    destruct (join_neighbours (lit " + ") (q ++ [41%N]) (45%N :: p2) ps1 ps2)
      as (A & B & EJ).
    rewrite EJ in Hfmt. injection Hfmt as <-.
    match goal with
    | |- adjacent _ _ (filter _ (?L ++ ?a :: ?b :: ?c :: ?R)) =>
        replace (L ++ a :: b :: c :: R) with ((L ++ [a; b; c]) ++ R)
          by (now rewrite <- app_assoc)
    end.
    exact (printed_difference_adjacent _ A q p2 B). }
  destruct (parse_raw s) as [[l raw]|e] eqn:Er.
  - exfalso. refine (@parse_raw_no_follow _ _ _ _ _ Er _ _ Hadj); discriminate.
  - unfold parse_recurrence. rewrite Er. cbn [bind].
    pose proof (parse_raw_raises _ Er) as P.
    destruct e; try destruct P. eauto.
Qed.

End PrintedDifference.

Lemma printed_difference_not_reparsed_witness :
  exists why,
    @parse_recurrence Reference.basic_latin (lit "T(n) = 2*T(n-1) - T(n-2)")
    = Raise (ParseError why).
Proof.
  refine (@printed_difference_not_reparsed Reference.basic_latin minus_rec
            [] [] (mkFunctionTerm f2 (lit "T") [lit "n"] [fm1])
            (T_term fm1 fm2) (lit "T(n-2)") (lit "T(n) = 2*T(n-1) - T(n-2)")
            _ _ _).
  - reflexivity.
  - vm_compute. reflexivity.
  - vm_compute. reflexivity.
Defined.

(** ** optimize.py: the objective *)

Lemma fltb_not_nan (a b : float) :
  (a <? b)%b64 = true -> isnan a = false /\ isnan b = false.
Proof. destruct a, b; try discriminate; auto. Qed.

Lemma fltb_fleb (a b : float) : (a <? b)%b64 = true -> (a <=? b)%b64 = true.
Proof.
  unfold fltb, fleb, SFltb, SFleb.
  destruct (SFcompare a b) as [[]|]; congruence.
Qed.

Lemma fleb_total (a b : float) :
  isnan a = false -> isnan b = false ->
  (a <=? b)%b64 = false -> (b <? a)%b64 = true.
Proof.
  unfold fltb, fleb, SFltb, SFleb. rewrite (SFcompare_antisym a b).
  destruct a as [sa|sa| |sa ma ea], b as [sb|sb| |sb mb eb]; try discriminate;
    intros _ _; cbn [SFcompare];
    repeat match goal with
           | |- context [if ?s then _ else _] => destruct s
           end; cbn [option_map CompOpp]; try congruence;
    destruct (ea ?= eb)%Z; cbn [option_map CompOpp]; try congruence;
    destruct (PosDef.Pos.compare_cont Eq ma mb); cbn [option_map CompOpp CompOpp];
    congruence.
Qed.

(** The order of the doubles is transitive. *)
Lemma fleb_fltb_trans (a b c : float) :
  (a <=? b)%b64 = true -> (b <? c)%b64 = true -> (a <=? c)%b64 = true.
Proof.
  unfold fltb, fleb, SFltb, SFleb.
  destruct a as [sa|sa| |sa ma ea], b as [sb|sb| |sb mb eb],
           c as [sc|sc| |sc mc ec]; cbn [SFcompare];
    try discriminate;
    try (destruct sa; discriminate); try (destruct sb; discriminate);
    try (destruct sa, sb; discriminate);
    try (destruct sb, sc; discriminate);
    try (destruct sa; reflexivity); try (destruct sc; reflexivity);
    try (destruct sa, sc; reflexivity);
    try (destruct sa, sb, sc; (discriminate || reflexivity)).
  repeat match goal with
         | |- context [PosDef.Pos.compare_cont Eq ?p ?q] =>
             change (PosDef.Pos.compare_cont Eq p q) with (Pos.compare p q)
         end.
  destruct sa, sb, sc; try discriminate; try reflexivity;
    destruct (Z.compare_spec ea eb), (Z.compare_spec eb ec),
             (Z.compare_spec ea ec); try discriminate; try reflexivity;
      try lia; subst;
      destruct (Pos.compare_spec ma mb), (Pos.compare_spec mb mc),
               (Pos.compare_spec ma mc); cbn [CompOpp];
        try discriminate; try reflexivity; try lia.
Qed.

Lemma cache_set_ok (k : Z * Z) (v : float) (c : Optimize.cache) :
  Optimize.cache_ok c ->
  isfinite v = true -> (v <? PENALTY)%b64 = true ->
  Optimize.cache_ok (Optimize.cache_set k v c).
Proof.
  intros Hc Hf Hv. induction Hc as [|[k' v'] c Hkv Hc IH];
    cbn [Optimize.cache_set].
  - repeat constructor; assumption.
  - destruct (Optimize.cache_key_eqb k' k); constructor; auto.
Qed.

Section ObjectiveFacts.
Context {NP : Numerics} {SP : SciPy} {NA : Optimize.NumPyArrays}.
Variable situations : list Optimize.SituationRecord.

(** The value of a rule is never a NaN or an infinity. *)
Lemma rule_value_finite (x : list float) (rule : Optimize.RuleRecord)
    (st st' : Optimize.globals) (v : float) :
  Optimize._rule_value x rule st = (Ok v, st') -> isfinite v = true.
Proof.
  unfold Optimize._rule_value, Optimize.root.
  destruct (Optimize.root_value _ _) as [val|e]; [ | discriminate ].
  destruct (isfinite val) eqn:Ef; cbn [negb].
  - destruct (val <? PENALTY)%b64; intros H; injection H as <- _; exact Ef.
  - intros H. injection H as <- _. reflexivity.
Qed.

Lemma rule_value_cache (x : list float) (rule : Optimize.RuleRecord)
    (st : Optimize.globals) :
  Optimize.cache_ok (Optimize.root_cache st) ->
  Optimize.cache_ok (Optimize.root_cache (snd (Optimize._rule_value x rule st))).
Proof.
  intros Hc. unfold Optimize._rule_value, Optimize.root.
  destruct (Optimize.root_value _ _) as [val|e]; [ | exact Hc ].
  destruct (isfinite val) eqn:Ef; cbn [negb]; [ | exact Hc ].
  destruct (val <? PENALTY)%b64 eqn:Ev; [ | exact Hc ].
  cbn [snd Optimize.root_cache]. now apply cache_set_ok.
Qed.

Lemma min_rule_values_cache (x : list float) (rest : list Optimize.RuleRecord) :
  forall best st,
    Optimize.cache_ok (Optimize.root_cache st) ->
    Optimize.cache_ok
      (Optimize.root_cache (snd (Optimize.min_rule_values x rest best st))).
Proof.
  induction rest as [|r rest IH]; intros best st Hc;
    cbn [Optimize.min_rule_values]; [ exact Hc | ].
  unfold Optimize.bindM.
  pose proof (@rule_value_cache x r st Hc) as H1.
  destruct (Optimize._rule_value x r st) as [[v|e] st1]; cbn [snd] in *.
  - now apply IH.
  - exact H1.
Qed.

Lemma f_i_cache (x : list float) (i : nat) (st : Optimize.globals) :
  Optimize.cache_ok (Optimize.root_cache st) ->
  Optimize.cache_ok (Optimize.root_cache (snd (Optimize.f_i situations x i st))).
Proof.
  intros Hc. unfold Optimize.f_i.
  destruct (nth_error situations i) as [sit|]; [ | exact Hc ].
  destruct (Optimize.rules sit) as [|r rest]; [ exact Hc | ].
  unfold Optimize.bindM.
  pose proof (@rule_value_cache x r st Hc) as H1.
  destruct (Optimize._rule_value x r st) as [[v|e] st1]; cbn [snd] in *.
  - now apply min_rule_values_cache.
  - exact H1.
Qed.

(** X18.  The warm-start cache of the optimizer only ever holds finite
    roots below the sentinel [1e6]: if that is so before the objective [f]
    is evaluated at [p], it is so afterwards, whatever [root] returned or
    raised on the way. *)
Theorem objective_keeps_cache (p : list float) (st : Optimize.globals) :
  Optimize.cache_ok (Optimize.root_cache st) ->
  Optimize.cache_ok (Optimize.root_cache (snd (Optimize.f situations p st))).
Proof.
  unfold Optimize.f, Optimize.f_x.
  generalize (Optimize.np_clip_array (Optimize._params_to_x p) f0 f1) as x.
  generalize (seq 0 (List.length situations)) as indices.
  generalize f1 as worst. intros worst indices x. revert worst st.
  induction indices as [|i indices IH]; intros worst st Hc;
    cbn [Optimize.f_x_loop]; [ exact Hc | ].
  unfold Optimize.bindM.
  pose proof (@f_i_cache x i st Hc) as H1.
  destruct (Optimize.f_i situations x i st) as [[v|e] st1]; cbn [snd] in *;
    [ | exact H1 ].
  destruct (worst <? v)%b64; [ | now apply IH ].
  destruct (PENALTY <=? v)%b64; [ exact H1 | now apply IH ].
Qed.

(** X17.  Whenever the objective [f] of the optimizer returns, its value
    lies between [1.0] and the sentinel [1e6], both included: it is never
    a NaN, an infinity or a root above the sentinel, whatever the rules,
    the weights and the root finder are. *)
Theorem objective_in_range (p : list float) (st st' : Optimize.globals)
    (v : float) :
  Optimize.f situations p st = (Ok v, st') ->
  (f1 <=? v)%b64 = true /\ (v <=? PENALTY)%b64 = true.
Proof.
  unfold Optimize.f, Optimize.f_x.
  generalize (Optimize.np_clip_array (Optimize._params_to_x p) f0 f1) as x.
  generalize (seq 0 (List.length situations)) as indices.
  assert (Hlo : (f1 <=? f1)%b64 = true) by reflexivity.
  assert (Hhi : (f1 <=? PENALTY)%b64 = true) by reflexivity.
  revert Hlo Hhi. generalize f1 at 2 3 4 as worst.
  intros worst Hlo Hhi indices x. revert worst st Hlo Hhi.
  induction indices as [|i indices IH]; intros worst st Hlo Hhi;
    cbn [Optimize.f_x_loop].
  - intros H. injection H as <- _. now split.
  - unfold Optimize.bindM.
    destruct (Optimize.f_i situations x i st) as [[v1|e] st1]; [ | discriminate ].
    destruct (worst <? v1)%b64 eqn:Ew; [ | now apply IH ].
    destruct (PENALTY <=? v1)%b64 eqn:Ep.
    + intros H. injection H as <- _. split; reflexivity.
    + apply IH.
      * exact (@fleb_fltb_trans _ _ _ Hlo Ew).
      * apply fltb_fleb, fleb_total; [ reflexivity | | exact Ep ].
        exact (proj2 (@fltb_not_nan _ _ Ew)).
Qed.

End ObjectiveFacts.

Lemma objective_in_range_witness :
  (f1 <=? S754_finite false 7286977268806824 (-52))%b64 = true /\
  (S754_finite false 7286977268806824 (-52) <=? PENALTY)%b64 = true.
Proof.
  refine (@objective_in_range Reference.numerics Reference.scipy
            Optimize.reference_arrays Optimize.two_branches [f1]
            Optimize.no_calls
            (Optimize.mkGlobals 1
               [(0%Z, 0%Z, S754_finite false 7286977268806824 (-52))])
            (S754_finite false 7286977268806824 (-52)) _).
  vm_compute. reflexivity.
Defined.

Lemma objective_keeps_cache_witness :
  Optimize.cache_ok
    (Optimize.root_cache
       (snd (@Optimize.f Reference.numerics Reference.scipy
               Optimize.reference_arrays Optimize.two_branches [f1]
               Optimize.no_calls))).
Proof.
  refine (@objective_keeps_cache Reference.numerics Reference.scipy
            Optimize.reference_arrays Optimize.two_branches [f1]
            Optimize.no_calls _).
  constructor.
Defined.

(** ** solver.py in exact arithmetic: monotonicity *)

Section ExactMonotone.
Local Open Scope R_scope.

















End ExactMonotone.


(** ** solver.py: the sentinel and the order of the results *)

Section SentinelOrder.
Context {NP : Numerics} {SP : SciPy} {L : NumericsLaws NP}.

(** X20.  The results of [solve_recurrence] are not monotone in the
    coefficient across the sentinel.  For every finite negative shift [s]
    and every coefficient [c] with [c*1 - 1 <= -1e-12] in double
    arithmetic ([c*1] not a zero), [T(n) = c*T(n+s)] solves to the
    sentinel [1e6] while [T(n) = 1*T(n+s)], with the larger coefficient,
    solves to [1.0]. *)
Theorem sentinel_breaks_monotonicity (c s : float) :
  isfinite s = true ->
  (s <? f0)%b64 = true ->
  nonzero (c * f1)%b64 = true ->
  (c * f1 - f1 <=? - eps12)%b64 = true ->
  solve_recurrence (mkRecurrence T_n [T_term c s]) = Ok PENALTY /\
  solve_recurrence (mkRecurrence T_n [T_term f1 s]) = Ok f1 /\
  (f1 <? PENALTY)%b64 = true.
Proof.
  intros Hfin Hneg Hnz Hlow.
  assert (Hone : forall k,
             solve_recurrence (mkRecurrence T_n [T_term k s])
             = if (fabs (np_sum [(k * f1)%b64] - f1) <? eps12)%b64 then Ok f1
               else if (np_sum [(k * f1)%b64] - f1 <? f0)%b64 then Ok PENALTY
               else match upper_bracket (g_rec [k] [(- s)%b64]) 50 f2 with
                    | None => Ok PENALTY
                    | Some b =>
                        match root_scalar_brentq (g_rec [k] [(- s)%b64]) f1 b with
                        | Some (true, root) =>
                            match snap_int root 6 with
                            | Ok r => Ok r
                            | Raise _ => Ok PENALTY
                            end
                        | _ => Ok PENALTY
                        end
                    end).
  { intros k.
    rewrite (@solve_recurrence_unfold _ _ (mkRecurrence T_n [T_term k s])
               [(- s)%b64] eq_refl ltac:(discriminate) eq_refl).
    cbn [existsb]. rewrite (negative_shift_delta _ Hneg). cbn [orb].
    cbn [rhs T_term function_terms flat_map app map coef].
    rewrite g_rec_at_one; [ reflexivity | | reflexivity ].
    cbn [forallb]. now destruct s. }
  repeat split.
  - rewrite Hone, np_sum_single by exact Hnz.
    destruct (at_most_minus_eps _ Hlow) as [-> ->]. reflexivity.
  - rewrite Hone, np_sum_single by reflexivity.
    change (fabs (f1 * f1 - f1) <? eps12)%b64 with true. reflexivity.
Qed.

End SentinelOrder.

Lemma sentinel_breaks_monotonicity_witness :
  @solve_recurrence Reference.numerics Reference.scipy
    (mkRecurrence T_n [T_term f0_5 fm1]) = Ok PENALTY /\
  @solve_recurrence Reference.numerics Reference.scipy
    (mkRecurrence T_n [T_term f1 fm1]) = Ok f1 /\
  (f1 <? PENALTY)%b64 = true.
Proof.
  exact (@sentinel_breaks_monotonicity Reference.numerics Reference.scipy
           reference_laws f0_5 fm1 eq_refl eq_refl eq_refl eq_refl).
Defined.

(** ** parser.py: a plus sign in front of the right-hand side *)

Lemma split_pieces (c : N) (s : str) :
  Forall (fun p => ~ In c p) (split c s).
Proof.
  induction s as [|x s IH]; cbn [split].
  - repeat constructor. intros [].
  - destruct (N.eqb_spec x c) as [-> | Hne].
    + constructor; [ intros [] | exact IH ].
    + destruct (split c s) as [|p ps]; [ repeat constructor | ].
      * intros [E | []]. congruence.
      * inversion IH as [|? ? Hp Hps]; subst. constructor; [ | exact Hps ].
        intros [E | Hin]; [ congruence | now apply Hp ].
Qed.

Lemma split_two (c : N) (a b : str) :
  ~ In c a -> ~ In c b -> split c (a ++ c :: b) = [a; b].
Proof.
  intros Ha Hb.
  assert (Hone : forall t, ~ In c t -> split c t = [t]).
  { induction t as [|x t IHt]; intros Ht; cbn [split]; [ reflexivity | ].
    destruct (N.eqb_spec x c) as [-> | _]; [ contradiction Ht; now left | ].
    rewrite IHt; [ reflexivity | ]. intros Hin. apply Ht. now right. }
  induction a as [|x a IH]; cbn [app split].
  - rewrite N.eqb_refl. now rewrite Hone.
  - destruct (N.eqb_spec x c) as [-> | _]; [ contradiction Ha; now left | ].
    rewrite IH; [ reflexivity | ]. intros Hin. apply Ha. now right.
Qed.

(** The first separator of a string is where it is. *)
Lemma first_separator (c : N) (l r a b : str) :
  ~ In c l -> ~ In c r -> l ++ c :: r = a ++ c :: b -> l = a /\ r = b.
Proof.
  revert a. induction l as [|x l IH]; intros a Hl Hr E.
  - destruct a as [|y a]; cbn [app] in E.
    + injection E as <-. now split.
    + injection E as <- E. contradiction Hr. rewrite E.
      apply in_or_app. right. now left.
  - destruct a as [|y a]; cbn [app] in E.
    + injection E as -> _. contradiction Hl. now left.
    + injection E as <- E. destruct (IH a) as [-> ->]; auto.
      intros Hin. apply Hl. now right.
Qed.

Section LeadingPlus.
Context {U : Unicode}.

Lemma cleaned_around (a b mid : str) :
  forallb (fun x => negb (isspace x)) mid = true ->
  filter (fun x => negb (isspace x)) (a ++ mid ++ b)
  = filter (fun x => negb (isspace x)) a ++ mid
    ++ filter (fun x => negb (isspace x)) b.
Proof.
  intros H. rewrite !filter_app. f_equal. f_equal.
  induction mid as [|x mid IH]; [ reflexivity | ].
  cbn [forallb] in H. apply andb_prop in H as [Hx H].
  cbn [filter]. rewrite Hx. f_equal. now apply IH.
Qed.

(** [parse_raw] on a text cut at its equals sign. *)
Lemma parse_raw_sides (text lhs_str rhs_str : str) :
  filter (fun x => negb (isspace x)) text = lhs_str ++ 61%N :: rhs_str ->
  ~ In 61%N lhs_str -> ~ In 61%N rhs_str ->
  parse_raw text =
  if negb (nonempty lhs_str) then Raise (ParseError EmptyLhs)
  else if negb (nonempty rhs_str) then Raise (ParseError EmptyRhs)
  else
    match match_call lhs_str with
    | None => Raise (ParseError (InvalidLhs lhs_str))
    | Some (func, raw_args_str) =>
        if negb (is_valid_identifier func) then
          Raise (ParseError (InvalidFunctionName func))
        else
          let raw_args :=
            filter nonempty (map strip (split 44 raw_args_str)) in
          match raw_args with
          | [] => Raise (ParseError (NoArguments lhs_str))
          | _ =>
              vars_list <- check_vars raw_args [] ;;
              lhs <- FunctionTerm_init f1 func vars_list
                       (repeat f0 (List.length vars_list)) ;;
              let summands :=
                filter nonempty (map strip (_split_rhs rhs_str)) in
              match summands with
              | [] => Raise (ParseError EmptyRhs)
              | _ =>
                  raw_terms <-
                    match summands with
                    | [s] =>
                        match match_number s with
                        | Some n => Ok [ConstantTerm (float_of_number n)]
                        | None =>
                            mapM (fun s => _parse_term s func vars_list)
                                 summands
                        end
                    | _ =>
                        mapM (fun s => _parse_term s func vars_list)
                             summands
                    end ;;
                  Ok (lhs, raw_terms)
              end
          end
    end.
Proof.
  intros E Hl Hr. unfold parse_raw. rewrite E.
  destruct (lhs_str ++ 61%N :: rhs_str) eqn:Ec;
    [ destruct lhs_str; discriminate | ].
  rewrite <- Ec, (@split_two _ _ _ Hl Hr). reflexivity.
Qed.

(** An accepted text has its only equals sign where the text is cut. *)
Lemma parse_raw_ok_sides (text a b : str) (x : FunctionTerm * list Term) :
  parse_raw text = Ok x ->
  filter (fun c => negb (isspace c)) text = a ++ 61%N :: b ->
  ~ In 61%N a /\ ~ In 61%N b.
Proof.
  unfold parse_raw. intros H E.
  destruct (filter _ text) as [|c0 cl] eqn:Ec; [ discriminate | ].
  pose proof (split_pieces 61 (c0 :: cl)) as Hp.
  destruct (split 61 (c0 :: cl)) as [|l [|r [|]]] eqn:Esp; try discriminate.
  apply split_join in Esp. rewrite E in Esp.
  inversion Hp as [|? ? Hl Hp']; subst. inversion Hp' as [|? ? Hr _]; subst.
  destruct (@first_separator 61%N l r a b Hl Hr (eq_sym Esp)) as [<- <-].
  now split.
Qed.

(** With nothing but a plus sign on the right, nothing is parsed. *)
Lemma parse_raw_only_plus (text lhs_str : str) (x : FunctionTerm * list Term) :
  filter (fun c => negb (isspace c)) text = lhs_str ++ [61%N; 43%N] ->
  parse_raw text <> Ok x.
Proof.
  intros E H.
  destruct (@parse_raw_ok_sides text lhs_str [43%N] x H E) as [Hl Hr].
  rewrite (@parse_raw_sides text lhs_str [43%N] E Hl Hr) in H.
  destruct (negb (nonempty lhs_str)); [ discriminate | ].
  cbn [nonempty negb] in H.
  destruct (match_call lhs_str) as [[fn ras]|]; [ | discriminate ].
  destruct (negb (is_valid_identifier fn)); [ discriminate | ].
  destruct (filter nonempty (map strip (split 44 ras))) as [|a0 args];
    [ discriminate | ].
  destruct (check_vars _ _) as [vs|e]; cbn [bind] in H; [ | discriminate ].
  destruct (FunctionTerm_init _ _ _ _) as [lhs0|e]; cbn [bind] in H;
    discriminate.
Qed.

(** X21.  A plus sign right after the equals sign is ignored: with or
    without it [parse_recurrence] returns the same recurrence, so the
    right-hand side need not start with a term. *)
Theorem leading_plus_ignored (a b : str) (rec : Recurrence) :
  parse_recurrence (a ++ lit "=+" ++ b) = Ok rec <->
  parse_recurrence (a ++ lit "=" ++ b) = Ok rec.
Proof.
  pose proof (@cleaned_around a b (lit "=+") eq_refl) as E1.
  pose proof (@cleaned_around a b (lit "=") eq_refl) as E2.
  set (ca := filter (fun c => negb (isspace c)) a) in *.
  set (cb := filter (fun c => negb (isspace c)) b) in *.
  change (ca ++ lit "=+" ++ cb) with (ca ++ 61%N :: 43%N :: cb) in E1.
  change (ca ++ lit "=" ++ cb) with (ca ++ 61%N :: cb) in E2.
  assert (Same : ~ In 61%N ca -> ~ In 61%N cb -> cb <> [] ->
                 parse_raw (a ++ lit "=+" ++ b) = parse_raw (a ++ lit "=" ++ b)).
  { intros Ha Hb Hne.
    assert (Hb' : ~ In 61%N (43%N :: cb))
      by (intros [D | Hin]; [ discriminate | now apply Hb ]).
    rewrite (@parse_raw_sides _ ca (43%N :: cb) E1 Ha Hb').
    rewrite (@parse_raw_sides _ ca cb E2 Ha Hb).
    destruct cb as [|c cb']; [ congruence | reflexivity ]. }
  unfold parse_recurrence. split; intros H.
  - destruct (parse_raw (a ++ lit "=+" ++ b)) as [x|e] eqn:Er;
      cbn [bind] in H; [ | discriminate ].
    destruct (@parse_raw_ok_sides _ ca (43%N :: cb) x Er E1) as [Ha Hb'].
    assert (Hb : ~ In 61%N cb) by (intros Hin; apply Hb'; now right).
    assert (Hne : cb <> []).
    { intros Hnil. rewrite Hnil in E1.
      exact (@parse_raw_only_plus _ ca x E1 Er). }
    rewrite <- (Same Ha Hb Hne). exact H.
  - destruct (parse_raw (a ++ lit "=" ++ b)) as [x|e] eqn:Er;
      cbn [bind] in H; [ | discriminate ].
    destruct (@parse_raw_ok_sides _ ca cb x Er E2) as [Ha Hb].
    assert (Hne : cb <> []).
    { intros Hnil. rewrite Hnil in E2.
      rewrite (@parse_raw_sides _ ca [] E2 Ha ltac:(intros [])) in Er.
      destruct (negb (nonempty ca)); discriminate. }
    rewrite (Same Ha Hb Hne). exact H.
Qed.

End LeadingPlus.
